(** * Scheduling policies and the FCFS resource protocol of pa2.c

    A shallow embedding of [src/pa2.c]: the global variables of the
    translation unit ([current], [readyqueue], [resources], [ticks],
    [quiet]) become the fields of an explicit [state]; every C function
    becomes a Rocq function from states to results.  Dereferencing a null
    or unallocated pointer, indexing [resources] out of range and a failed
    [assert] are faults of the error monad [result]. *)

From Stdlib Require Import ZArith Lia String.
From stdpp Require Import base decidable option list gmap.

(** ** Data model *)

(** Modelled from the spec: process.h is not part of src.  The status
    enumeration has the four states of the data model; the code names
    three of them ([PROCESS_READY], [PROCESS_RUNNING], [PROCESS_WAIT]). *)
Inductive process_status :=
  | PROCESS_READY
  | PROCESS_RUNNING
  | PROCESS_WAIT
  | PROCESS_EXIT.

#[global] Instance process_status_eq_dec : EqDecision process_status.
Proof. solve_decision. Defined.

(** A [struct process *] is an address; the null pointer is [None] of
    [option ptr]. *)
Abbreviation ptr := nat (only parsing).

(** Modelled from the spec: process.h is not part of src.  [age] and
    [lifespan] are unsigned 32-bit counters (as [ticks] is declared in
    pa2.c); they are carried as integers and the one subtraction the code
    performs on them wraps around (see [usub]).  The embedded [list] node
    of the C structure is represented by the position of the process's
    address in the queue that holds it. *)
Record process := mkProcess {
  pid : nat;
  status : process_status;
  age : Z;
  lifespan : Z;
  prio : Z;
}.

(** Modelled from the spec: resource.h is not part of src.  A resource has
    an owner slot and a wait queue; pa2.c reads and writes [r->owner] and
    [r->waitqueue]. *)
Record resource := mkResource {
  owner : option ptr;
  waitqueue : list ptr;
}.

(** The global variables pa2.c declares [extern], plus the memory holding
    the process structures. *)
Record state := mkState {
  current : option ptr;
  readyqueue : list ptr;
  resources : list resource;
  procs : gmap nat process;
  ticks : Z;
  quiet : bool;
}.

(** ** Faults and the error monad *)

Inductive fault :=
  | NullDeref            (* [p->f] with [p == NULL] *)
  | InvalidPointer       (* [p->f] with [p] not the address of a process *)
  | OutOfBounds          (* [resources + i] outside the table *)
  | OwnershipViolation   (* [assert(r->owner == current)] failed *)
  | WaiterNotWaiting     (* [assert(waiter->status == PROCESS_WAIT)] failed *)
  | NullCall.            (* call through a null function pointer *)

Inductive result (A : Type) :=
  | Ok (a : A)
  | Fault (f : fault).
Arguments Ok {A} a.
Arguments Fault {A} f.

#[global] Instance fault_eq_dec : EqDecision fault.
Proof. solve_decision. Defined.

#[global] Instance result_ret : MRet result := fun A a => Ok a.
#[global] Instance result_bind : MBind result := fun A B f m =>
  match m with
  | Ok a => f a
  | Fault e => Fault e
  end.

(** ** Memory access *)

(** [p->...] for reading. *)
Definition deref (p : option ptr) (st : state) : result process :=
  match p with
  | None => Fault NullDeref
  | Some a =>
      match procs st !! a with
      | Some v => Ok v
      | None => Fault InvalidPointer
      end
  end.

Definition with_status (s : process_status) (p : process) : process :=
  {| pid := pid p; status := s; age := age p; lifespan := lifespan p;
     prio := prio p |}.

Definition set_current (c : option ptr) (st : state) : state :=
  {| current := c; readyqueue := readyqueue st; resources := resources st;
     procs := procs st; ticks := ticks st; quiet := quiet st |}.

Definition set_readyqueue (q : list ptr) (st : state) : state :=
  {| current := current st; readyqueue := q; resources := resources st;
     procs := procs st; ticks := ticks st; quiet := quiet st |}.

Definition set_resources (rs : list resource) (st : state) : state :=
  {| current := current st; readyqueue := readyqueue st; resources := rs;
     procs := procs st; ticks := ticks st; quiet := quiet st |}.

Definition set_procs (m : gmap nat process) (st : state) : state :=
  {| current := current st; readyqueue := readyqueue st;
     resources := resources st; procs := m; ticks := ticks st;
     quiet := quiet st |}.

(** [p->status = s]. *)
Definition store_status (p : option ptr) (s : process_status) (st : state)
  : result state :=
  match p with
  | None => Fault NullDeref
  | Some a =>
      match procs st !! a with
      | Some v => Ok (set_procs (<[a := with_status s v]> (procs st)) st)
      | None => Fault InvalidPointer
      end
  end.

(** [resources + resource_id], with [int resource_id]. *)
Definition resource_at (resource_id : Z) (st : state) : result resource :=
  if (resource_id <? 0)%Z then Fault OutOfBounds
  else match resources st !! Z.to_nat resource_id with
       | Some r => Ok r
       | None => Fault OutOfBounds
       end.

(** [*(resources + resource_id) = r], for an index already checked. *)
Definition store_resource (resource_id : Z) (r : resource) (st : state)
  : state :=
  set_resources (<[Z.to_nat resource_id := r]> (resources st)) st.

(** ** Queues *)

(** A queue ([struct list_head]) is the ordered sequence of the processes
    linked on it, head first.  The C idiom
    [if (!list_empty(&q)) { p = list_first_entry(&q, ...); ... }] is a match
    on that sequence.  The node handed to [list_add] and [list_add_tail] is
    on no queue when it is added, which is the discipline of the data model
    (a process is on at most one queue). *)

(** Modelled from the spec: list_head.h is not part of src.
    [list_add_tail(&p->list, &q)] links [p] after the last entry. *)
Definition list_add_tail (p : ptr) (q : list ptr) : list ptr := q ++ [p].

(** Modelled from the spec: list_head.h is not part of src.
    [list_add(&p->list, &q)] links [p] before the first entry. *)
Definition list_add (p : ptr) (q : list ptr) : list ptr := p :: q.

(** Modelled from the spec: list_head.h is not part of src.
    [list_del_init(&p->list)] unlinks [p] from the queue it is on; the other
    entries keep their order. *)
Fixpoint list_del_init (p : ptr) (q : list ptr) : list ptr :=
  match q with
  | [] => []
  | x :: q' => if decide (x = p) then q' else x :: list_del_init p q'
  end.

(** ** Default FCFS resource protocol *)

Definition fcfs_acquire (resource_id : Z) (st : state)
  : result (bool * state) :=
  r ← resource_at resource_id st;
  match owner r with
  | None =>
      (* This resource is not owned by any one. Take it! *)
      Ok (true,
          store_resource resource_id
            {| owner := current st; waitqueue := waitqueue r |} st)
  | Some _ =>
      (* Update the current process state *)
      st1 ← store_status (current st) PROCESS_WAIT st;
      (* And append current to waitqueue *)
      c ← from_option Ok (Fault NullDeref) (current st1);
      Ok (false,
          store_resource resource_id
            {| owner := owner r;
               waitqueue := list_add_tail c (waitqueue r) |} st1)
  end.

Definition fcfs_release (resource_id : Z) (st : state) : result state :=
  r ← resource_at resource_id st;
  (* Ensure that the owner process is releasing the resource *)
  if decide (owner r = current st) then
    (* Un-own this resource *)
    let st1 :=
      store_resource resource_id
        {| owner := None; waitqueue := waitqueue r |} st in
    (* Let's wake up ONE waiter (if exists) that came first *)
    match waitqueue r with
    | [] => Ok st1
    | waiter :: _ =>
        w ← deref (Some waiter) st1;
        if decide (status w = PROCESS_WAIT) then
          let st2 :=
            store_resource resource_id
              {| owner := None;
                 waitqueue := list_del_init waiter (waitqueue r) |} st1 in
          st3 ← store_status (Some waiter) PROCESS_READY st2;
          Ok (set_readyqueue (list_add_tail waiter (readyqueue st3)) st3)
        else Fault WaiterNotWaiting
    end
  else Fault OwnershipViolation.

(** ** Unsigned arithmetic *)

(** [a - b] on [unsigned int]: the difference modulo 2^32. *)
Definition usub (a b : Z) : Z := ((a - b) mod 2 ^ 32)%Z.

(** What the SRTF comparisons compute for a process: [p->lifespan - p->age]. *)
Definition remaining (p : process) : Z := usub (lifespan p) (age p).

(** ** FIFO scheduler *)

Definition fifo_initialize (st : state) : result (Z * state) := Ok (0%Z, st).

Definition fifo_finalize (st : state) : result state := Ok st.

(** The test [!current || current->status == PROCESS_WAIT]; the right
    operand is evaluated only when the left one is false. *)
Definition no_current_or_waiting (st : state) : result bool :=
  match current st with
  | None => Ok true
  | Some _ =>
      c ← deref (current st) st;
      Ok (bool_decide (status c = PROCESS_WAIT))
  end.

(** The code after the label [pick_next]. *)
Definition fifo_pick_next (st : state) : result (option ptr * state) :=
  match readyqueue st with
  | [] => Ok (None, st)
  | next :: _ =>
      Ok (Some next, set_readyqueue (list_del_init next (readyqueue st)) st)
  end.

Definition fifo_schedule (st : state) : result (option ptr * state) :=
  b ← no_current_or_waiting st;
  if (b : bool) then fifo_pick_next st
  else
    c ← deref (current st) st;
    (* The current process has remaining lifetime. Schedule it again *)
    if (age c <? lifespan c)%Z then Ok (current st, st)
    else fifo_pick_next st.

(** ** SJF scheduler *)

Definition sjf_initialize (st : state) : result (Z * state) := Ok (0%Z, st).

Definition sjf_finalize (st : state) : result state := Ok st.

(** The [list_for_each_entry] loop of [sjf_schedule] over the entries [q]
    still to visit: the global [current] is the running best. *)
Fixpoint sjf_scan (q : list ptr) (st : state) : result state :=
  match q with
  | [] => Ok st
  | next :: q' =>
      c ← deref (current st) st;
      n ← deref (Some next) st;
      if (lifespan c >? lifespan n)%Z
      then sjf_scan q' (set_current (Some next) st)
      else sjf_scan q' st
  end.

(** The code after the label [skip]. *)
Definition sjf_skip (st : state) : result (option ptr * state) :=
  match readyqueue st with
  | [] => Ok (None, st)
  | first :: _ =>
      st1 ← sjf_scan (readyqueue st) (set_current (Some first) st);
      c ← from_option Ok (Fault NullDeref) (current st1);
      Ok (current st1,
          set_readyqueue (list_del_init c (readyqueue st1)) st1)
  end.

Definition sjf_schedule (st : state) : result (option ptr * state) :=
  b ← no_current_or_waiting st;
  if (b : bool) then sjf_skip st
  else
    c ← deref (current st) st;
    if (age c <? lifespan c)%Z then Ok (current st, st)
    else sjf_skip st.

(** ** SRTF scheduler *)

Definition srtf_initialize (st : state) : result (Z * state) := Ok (0%Z, st).

Definition srtf_finalize (st : state) : result state := Ok st.

(** The [list_for_each_entry] loop of [srtf_schedule] over the entries [q]
    still to visit: the local [init] is the running best. *)
Fixpoint srtf_scan (q : list ptr) (init : ptr) (st : state) : result ptr :=
  match q with
  | [] => Ok init
  | next :: q' =>
      i ← deref (Some init) st;
      n ← deref (Some next) st;
      if (remaining i >? remaining n)%Z
      then srtf_scan q' next st
      else srtf_scan q' init st
  end.

(** The test [current != NULL || current->status == PROCESS_RUNNING] of the
    empty-queue path; the right operand is evaluated only when the left one
    is false, that is when [current] is null. *)
Definition current_or_running (st : state) : result bool :=
  match current st with
  | Some _ => Ok true
  | None =>
      c ← deref (current st) st;
      Ok (bool_decide (status c = PROCESS_RUNNING))
  end.

Definition srtf_schedule (st : state) : result (option ptr * state) :=
  match readyqueue st with
  | first :: _ =>
      init ← srtf_scan (readyqueue st) first st;
      b ← no_current_or_waiting st;
      if (b : bool) then
        Ok (Some init,
            set_readyqueue (list_del_init init (readyqueue st)) st)
      else
        c ← deref (current st) st;
        if (age c <? lifespan c)%Z then
          i ← deref (Some init) st;
          if (remaining i <? remaining c)%Z then
            ca ← from_option Ok (Fault NullDeref) (current st);
            Ok (Some init,
                set_readyqueue
                  (list_add ca (list_del_init init (readyqueue st))) st)
          else Ok (current st, st)
        else
          Ok (Some init,
              set_readyqueue (list_del_init init (readyqueue st)) st)
  | [] =>
      b ← current_or_running st;
      if (b : bool) then
        c ← deref (current st) st;
        if (age c <? lifespan c)%Z then Ok (current st, st)
        else Ok (None, st)
      else Ok (None, st)
  end.

(** ** Policy tables *)

(** Modelled from the spec: sched.h is not part of src.  A policy is a
    name and five callbacks; a member the initializer leaves out is a null
    function pointer. *)
Record scheduler := mkScheduler {
  name : string;
  acquire : option (Z → state → result (bool * state));
  release : option (Z → state → result state);
  initialize : option (state → result (Z * state));
  finalize : option (state → result state);
  schedule : option (state → result (option ptr * state));
}.

Definition fifo_scheduler : scheduler :=
  {| name := "FIFO";
     acquire := Some fcfs_acquire;
     release := Some fcfs_release;
     initialize := Some fifo_initialize;
     finalize := Some fifo_finalize;
     schedule := Some fifo_schedule |}.

Definition sjf_scheduler : scheduler :=
  {| name := "Shortest-Job First";
     acquire := Some fcfs_acquire;
     release := Some fcfs_release;
     initialize := Some sjf_initialize;
     finalize := Some sjf_finalize;
     schedule := Some sjf_schedule |}.

Definition srtf_scheduler : scheduler :=
  {| name := "Shortest Remaining Time First";
     acquire := Some fcfs_acquire;
     release := Some fcfs_release;
     initialize := Some srtf_initialize;
     finalize := Some srtf_finalize;
     schedule := Some srtf_schedule |}.

Definition rr_scheduler : scheduler :=
  {| name := "Round-Robin";
     acquire := Some fcfs_acquire;
     release := Some fcfs_release;
     initialize := None;
     finalize := None;
     schedule := None |}.

Definition prio_scheduler : scheduler :=
  {| name := "Priority";
     acquire := None;
     release := None;
     initialize := None;
     finalize := None;
     schedule := None |}.

Definition pip_scheduler : scheduler :=
  {| name := "Priority + Priority Inheritance Protocol";
     acquire := None;
     release := None;
     initialize := None;
     finalize := None;
     schedule := None |}.

(** ** Predicates of the data model *)

(** A process the scheduler may keep running: not blocked, and with
    lifetime left. *)
Definition eligible (p : process) : Prop :=
  status p ≠ PROCESS_WAIT ∧ (age p < lifespan p)%Z.

#[global] Instance eligible_dec p : Decision (eligible p).
Proof. unfold eligible. apply _. Defined.

(** There is no current process, or the current process cannot go on. *)
Definition no_eligible_current (st : state) : Prop :=
  current st = None ∨
  ∃ c pc, current st = Some c ∧ procs st !! c = Some pc ∧ ¬ eligible pc.

(** Every entry of the ready queue is an allocated, eligible process. *)
Definition ready_ok (st : state) : Prop :=
  Forall (λ y, ∃ py, procs st !! y = Some py ∧ eligible py) (readyqueue st).

(** Every process on a wait queue is allocated and in [PROCESS_WAIT]. *)
Definition waiters_waiting (st : state) : Prop :=
  Forall (λ r, Forall (λ w, ∃ pw, procs st !! w = Some pw ∧
                               status pw = PROCESS_WAIT) (waitqueue r))
         (resources st).

(** The counters of a process fit [unsigned int] and respect
    [age <= lifespan]. *)
Definition proc_ok (p : process) : Prop :=
  (0 ≤ age p ∧ age p ≤ lifespan p ∧ lifespan p < 2 ^ 32)%Z.

(** The remaining time of the data model: [lifespan - age], as integers. *)
Definition time_left (p : process) : Z := (lifespan p - age p)%Z.

(** ** Earliest minimum of a queue *)

Section FirstMin.
Variable key : process → Z.
Variable m : gmap nat process.

(** [x] splits [q] into [q1 ++ x :: q2] and is the earliest entry of [q]
    with the least key: everything before it has a strictly larger key,
    everything after it a key at least as large. *)
Definition first_min (q q1 : list ptr) (x : ptr) (q2 : list ptr) : Prop :=
  q = q1 ++ x :: q2 ∧
  ∃ px, m !! x = Some px ∧
    Forall (λ y, ∃ py, m !! y = Some py ∧ (key px < key py)%Z) q1 ∧
    Forall (λ y, ∃ py, m !! y = Some py ∧ (key px ≤ key py)%Z) q2.

(** The scan both [list_for_each_entry] loops perform, on the memory
    alone: a later entry replaces the running best only when its key is
    strictly smaller. *)
Fixpoint scan_min (q : list ptr) (best : ptr) : option ptr :=
  match q with
  | [] => Some best
  | next :: q' =>
      pb ← m !! best;
      pn ← m !! next;
      if (key pn <? key pb)%Z then scan_min q' next else scan_min q' best
  end.
End FirstMin.

(** ** The driver's view of a policy *)

(** The part of the state the callbacks work on: everything but [ticks]
    and [quiet]. *)
Definition core_eq (st1 st2 : state) : Prop :=
  current st1 = current st2 ∧ readyqueue st1 = readyqueue st2 ∧
  resources st1 = resources st2 ∧ procs st1 = procs st2.

Definition set_env (t : Z) (b : bool) (st : state) : state :=
  {| current := current st; readyqueue := readyqueue st;
     resources := resources st; procs := procs st; ticks := t; quiet := b |}.

Definition map_state {A} (g : state → state) (r : result (A * state))
  : result (A * state) :=
  match r with
  | Ok (a, s) => Ok (a, g s)
  | Fault e => Fault e
  end.

Definition map_final (g : state → state) (r : result state) : result state :=
  match r with
  | Ok s => Ok (g s)
  | Fault e => Fault e
  end.

(** The calls the driver makes into a policy, and what they return. *)
Inductive call :=
  | Schedule
  | Acquire (resource_id : Z)
  | Release (resource_id : Z).

Inductive retval :=
  | RProcess (p : option ptr)
  | RBool (b : bool)
  | RVoid.

(** Modelled from the spec: the simulation driver is not part of src.  It
    calls the active policy through the function pointers of its table; a
    call through a null function pointer is a fault. *)
Definition invoke (s : scheduler) (c : call) (st : state)
  : result (retval * state) :=
  match c with
  | Schedule =>
      f ← from_option Ok (Fault NullCall) (schedule s);
      '(p, st') ← f st;
      Ok (RProcess p, st')
  | Acquire resource_id =>
      f ← from_option Ok (Fault NullCall) (acquire s);
      '(b, st') ← f resource_id st;
      Ok (RBool b, st')
  | Release resource_id =>
      f ← from_option Ok (Fault NullCall) (release s);
      st' ← f resource_id st;
      Ok (RVoid, st')
  end.

(** A sequence of calls: the values returned until the sequence ends or a
    call faults, and the final state or the fault. *)
Fixpoint run (s : scheduler) (cs : list call) (st : state)
  : list retval * result state :=
  match cs with
  | [] => ([], Ok st)
  | c :: cs' =>
      match invoke s c st with
      | Ok (v, st') => let '(vs, r) := run s cs' st' in (v :: vs, r)
      | Fault e => ([], Fault e)
      end
  end.

(** The six policy tables of pa2.c. *)
Definition policies : list scheduler :=
  [fifo_scheduler; sjf_scheduler; srtf_scheduler; rr_scheduler;
   prio_scheduler; pip_scheduler].

(** Two outcomes agree: the same fault, or the same returned value and
    states with the same core. *)
Definition same_outcome {A} (r1 r2 : result (A * state)) : Prop :=
  match r1, r2 with
  | Ok (a1, s1), Ok (a2, s2) => a1 = a2 ∧ core_eq s1 s2
  | Fault e1, Fault e2 => e1 = e2
  | _, _ => False
  end.

Definition same_final (r1 r2 : result state) : Prop :=
  match r1, r2 with
  | Ok s1, Ok s2 => core_eq s1 s2
  | Fault e1, Fault e2 => e1 = e2
  | _, _ => False
  end.

(** ** Incomplete policy tables *)


(** ** Sample configurations *)

Definition sample_procs : gmap nat process :=
  list_to_map
    [(1%nat, mkProcess 1 PROCESS_RUNNING 1 5 0);
     (2%nat, mkProcess 2 PROCESS_READY 0 3 0);
     (3%nat, mkProcess 3 PROCESS_READY 0 2 0);
     (4%nat, mkProcess 4 PROCESS_READY 0 2 0);
     (5%nat, mkProcess 5 PROCESS_WAIT 1 4 0);
     (6%nat, mkProcess 6 PROCESS_WAIT 0 7 0);
     (8%nat, mkProcess 8 PROCESS_WAIT 0 3 0)]%Z.

(** Process 1 runs with 4 ticks left; 2, 3 and 4 are ready with 3, 2 and 2
    ticks left; resource 0 is free, 1 is held by process 1 with waiters 5
    and 6, 2 is held by process 2 with waiter 8, 3 is held by process 1. *)
Definition sample_state : state :=
  {| current := Some 1;
     readyqueue := [2; 3; 4];
     resources :=
       [ {| owner := None; waitqueue := [] |};
         {| owner := Some 1; waitqueue := [5; 6] |};
         {| owner := Some 2; waitqueue := [8] |};
         {| owner := Some 1; waitqueue := [] |} ];
     procs := sample_procs;
     ticks := 7;
     quiet := false |}.

(** The same configuration two ticks later: process 1 has 2 ticks left,
    as many as the best ready process. *)
Definition later_state : state :=
  set_procs (<[1%nat := mkProcess 1 PROCESS_RUNNING 3 5 0]> sample_procs)
    sample_state.

(** Process 1 has just been denied resource 2: it is in [PROCESS_WAIT] on
    the wait queue of resource 2 and is still the current process. *)
Definition denied_state : state :=
  set_procs (<[1%nat := mkProcess 1 PROCESS_WAIT 1 5 0]> sample_procs)
    (store_resource 2 {| owner := Some 2; waitqueue := [8; 1] |}
       sample_state).

(** No process has arrived yet: nothing is ready and nothing runs. *)
Definition idle_state : state :=
  {| current := None;
     readyqueue := [];
     resources :=
       [ {| owner := None; waitqueue := [] |};
         {| owner := None; waitqueue := [] |} ];
     procs := ∅;
     ticks := 0;
     quiet := false |}.

(** Process 8 holds resource 0 and has just been denied resource 1, which
    process 5 holds while waiting for resource 0; nothing is ready. *)
Definition blocked_state : state :=
  {| current := Some 8;
     readyqueue := [];
     resources :=
       [ {| owner := Some 8; waitqueue := [5] |};
         {| owner := Some 5; waitqueue := [8] |} ];
     procs :=
       list_to_map
         [(5%nat, mkProcess 5 PROCESS_WAIT 1 4 0);
          (8%nat, mkProcess 8 PROCESS_WAIT 0 3 0)]%Z;
     ticks := 9;
     quiet := false |}.

(** ** Queue discipline *)

(** Every queued process: the ready queue, then the wait queues in table
    order. *)
Definition queued (st : state) : list ptr :=
  readyqueue st ++ concat (waitqueue <$> resources st).

(** The [schedule] callbacks pa2.c implements. *)
Definition schedulers : list (state → result (option ptr * state)) :=
  [fifo_schedule; sjf_schedule; srtf_schedule].

(** What a non-preemptive [schedule] call does to the ready queue [q] when
    the current process is [c], the call returns [r] and leaves [q']:
    nothing, or the returned process is unlinked. *)
Definition rq_pick (c : option ptr) (q : list ptr) (r : option ptr)
    (q' : list ptr) : Prop :=
  (q' = q ∧ (r = c ∨ r = None)) ∨
  (∃ p, r = Some p ∧ p ∈ q ∧ q' = list_del_init p q).

(** What any [schedule] call does to the ready queue: as [rq_pick], or the
    returned process is unlinked and the current process is linked at the
    head. *)
Definition rq_step (c : option ptr) (q : list ptr) (r : option ptr)
    (q' : list ptr) : Prop :=
  rq_pick c q r q' ∨
  (∃ p a, r = Some p ∧ c = Some a ∧ p ∈ q ∧
          q' = list_add a (list_del_init p q)).

(** Every process on a wait queue, in table order. *)
Definition waiters (st : state) : list ptr :=
  concat (waitqueue <$> resources st).

(** Closes [x ∉ [a; b; ...]] for distinct numerals. *)
Ltac not_in_list :=
  let H := fresh "Hin" in
  intros H;
  repeat (apply elem_of_cons in H as [H|H]; [discriminate H|]);
  by apply elem_of_nil in H.

(** Closes [NoDup [a; b; ...]] for distinct numerals. *)
Ltac no_dup_list :=
  repeat (apply NoDup_cons; split; [not_in_list|]); apply NoDup_nil_2.

(** ** Basic facts about the memory operations *)

Lemma bind_Ok {A B} (a : A) (f : A → result B) : Ok a ≫= f = f a.
Proof. reflexivity. Qed.

Lemma bind_Fault {A B} (e : fault) (f : A → result B) :
  Fault e ≫= f = Fault e.
Proof. reflexivity. Qed.

Lemma deref_Some st a v : procs st !! a = Some v → deref (Some a) st = Ok v.
Proof. intros H. unfold deref. by rewrite H. Qed.

Lemma store_status_Some st a s v :
  procs st !! a = Some v →
  store_status (Some a) s st =
    Ok (set_procs (<[a := with_status s v]> (procs st)) st).
Proof. intros H. unfold store_status. by rewrite H. Qed.

Lemma deref_store_resource p rid r st :
  deref p (store_resource rid r st) = deref p st.
Proof. reflexivity. Qed.

Lemma procs_store_resource rid r st :
  procs (store_resource rid r st) = procs st.
Proof. reflexivity. Qed.

Lemma resource_at_Ok rid st r :
  resource_at rid st = Ok r ↔
  (0 ≤ rid)%Z ∧ resources st !! Z.to_nat rid = Some r.
Proof.
  unfold resource_at. destruct (Z.ltb_spec rid 0) as [Hneg|Hpos].
  - split; [discriminate | intros [? _]; lia].
  - destruct (resources st !! Z.to_nat rid) as [r'|] eqn:E.
    + split; [intros [= ->]; auto | intros [_ [= ->]]; reflexivity].
    + split; [discriminate | intros [_ ?]; discriminate].
Qed.

Lemma resource_at_store rid st r r' :
  resource_at rid st = Ok r →
  resource_at rid (store_resource rid r' st) = Ok r'.
Proof.
  intros H. apply resource_at_Ok in H as [Hpos Hl].
  apply resource_at_Ok. split; [assumption|]. simpl.
  apply list_lookup_insert_eq. eapply lookup_lt_Some, Hl.
Qed.

Lemma resource_at_set_procs rid st m :
  resource_at rid (set_procs m st) = resource_at rid st.
Proof. reflexivity. Qed.

Lemma resource_at_set_readyqueue rid st q :
  resource_at rid (set_readyqueue q st) = resource_at rid st.
Proof. reflexivity. Qed.

Lemma list_del_init_head p q : list_del_init p (p :: q) = q.
Proof. simpl. destruct (decide (p = p)); congruence. Qed.

Lemma list_del_init_middle p q1 q2 :
  p ∉ q1 → list_del_init p (q1 ++ p :: q2) = q1 ++ q2.
Proof.
  induction q1 as [|x q1 IH]; intros Hnotin.
  - apply list_del_init_head.
  - apply not_elem_of_cons in Hnotin as [Hne Hnotin]. simpl.
    destruct (decide (x = p)); [congruence|]. by rewrite IH.
Qed.

(** ** The resource protocol *)

(** C1.  [acquire] on a free resource makes the current process the owner
    and returns true; on an owned resource it marks the current process
    [PROCESS_WAIT], links it at the tail of the resource's wait queue and
    returns false. *)
Theorem fcfs_acquire_grants_or_queues (resource_id : Z) (st : state)
    (r : resource) :
  resource_at resource_id st = Ok r →
  (owner r = None →
   ∃ st', fcfs_acquire resource_id st = Ok (true, st') ∧
          resource_at resource_id st' =
            Ok {| owner := current st; waitqueue := waitqueue r |}) ∧
  (∀ c pc, owner r ≠ None → current st = Some c → procs st !! c = Some pc →
   ∃ st', fcfs_acquire resource_id st = Ok (false, st') ∧
          procs st' !! c = Some (with_status PROCESS_WAIT pc) ∧
          resource_at resource_id st' =
            Ok {| owner := owner r; waitqueue := waitqueue r ++ [c] |}).
Proof.
  intros Hr. split.
  - intros Hfree. unfold fcfs_acquire. rewrite Hr. simpl. rewrite Hfree.
    eexists. split; [reflexivity|]. by eapply resource_at_store.
  - intros c pc Howned Hcur Hpc. unfold fcfs_acquire. rewrite Hr. simpl.
    destruct (owner r) as [o|] eqn:Ho; [|congruence].
    unfold store_status. rewrite Hcur, Hpc. simpl. rewrite Hcur. simpl.
    eexists. split; [reflexivity|]. split.
    + simpl. apply lookup_insert_eq.
    + unfold list_add_tail. eapply resource_at_store.
      rewrite resource_at_set_procs. exact Hr.
Qed.

(** C2.  [release] fails the ownership assertion exactly when the caller is
    not the recorded owner.  When the caller is the owner, the owner slot is
    cleared; with waiters, the head waiter leaves the wait queue, becomes
    [PROCESS_READY] and joins the ready queue at the tail, and the owner slot
    is empty after the call. *)
Theorem fcfs_release_wakes_head (resource_id : Z) (st : state)
    (r : resource) :
  resource_at resource_id st = Ok r →
  (fcfs_release resource_id st = Fault OwnershipViolation ↔
   owner r ≠ current st) ∧
  (owner r = current st → waitqueue r = [] →
   ∃ st', fcfs_release resource_id st = Ok st' ∧
          resource_at resource_id st' =
            Ok {| owner := None; waitqueue := [] |} ∧
          readyqueue st' = readyqueue st ∧ procs st' = procs st) ∧
  (∀ w ws pw, owner r = current st → waitqueue r = w :: ws →
     procs st !! w = Some pw → status pw = PROCESS_WAIT →
   ∃ st', fcfs_release resource_id st = Ok st' ∧
          resource_at resource_id st' =
            Ok {| owner := None; waitqueue := ws |} ∧
          procs st' !! w = Some (with_status PROCESS_READY pw) ∧
          readyqueue st' = readyqueue st ++ [w]).
Proof.
  intros Hr. unfold fcfs_release. rewrite Hr, bind_Ok. split; [|split].
  - destruct (decide (owner r = current st)) as [Heq|Hne].
    + split; [|intros Hne; contradiction].
      destruct (waitqueue r) as [|w ws]; [discriminate|].
      rewrite deref_store_resource. unfold deref.
      destruct (procs st !! w) as [pw|] eqn:Hpw; [|discriminate].
      rewrite bind_Ok.
      destruct (decide (status pw = PROCESS_WAIT)); [|discriminate].
      erewrite store_status_Some by (rewrite !procs_store_resource; exact Hpw).
      discriminate.
    + split; [intros _; assumption | reflexivity].
  - intros Heq Hq. destruct (decide (owner r = current st)); [|contradiction].
    rewrite Hq. eexists. split; [reflexivity|].
    split; [by eapply resource_at_store | split; reflexivity].
  - intros w ws pw Heq Hq Hpw Hst.
    destruct (decide (owner r = current st)); [|contradiction].
    rewrite Hq, deref_store_resource, (deref_Some _ _ _ Hpw), bind_Ok.
    destruct (decide (status pw = PROCESS_WAIT)); [|contradiction].
    erewrite store_status_Some by (rewrite !procs_store_resource; exact Hpw).
    rewrite bind_Ok. eexists. split; [reflexivity|]. split; [|split].
    + rewrite resource_at_set_readyqueue, resource_at_set_procs.
      rewrite list_del_init_head.
      eapply resource_at_store, resource_at_store, Hr.
    + simpl. apply lookup_insert_eq.
    + reflexivity.
Qed.

(** Both cases on [sample_state]: resource 0 is free, resource 2 is held. *)
Lemma fcfs_acquire_grants_or_queues_witness :
  (∃ st', fcfs_acquire 0 sample_state = Ok (true, st') ∧
          resource_at 0 st' = Ok {| owner := Some 1; waitqueue := [] |}) ∧
  (∃ st', fcfs_acquire 2 sample_state = Ok (false, st') ∧
          procs st' !! 1 = Some (mkProcess 1 PROCESS_WAIT 1 5 0) ∧
          resource_at 2 st' = Ok {| owner := Some 2; waitqueue := [8; 1] |}).
Proof.
  split.
  - apply (proj1 (fcfs_acquire_grants_or_queues 0 sample_state
                    {| owner := None; waitqueue := [] |} eq_refl)).
    reflexivity.
  - apply (proj2 (fcfs_acquire_grants_or_queues 2 sample_state
                    {| owner := Some 2; waitqueue := [8] |} eq_refl)
             1 (mkProcess 1 PROCESS_RUNNING 1 5 0));
      [discriminate | reflexivity | reflexivity].
Defined.

(** On [sample_state], whose current process holds resources 1 and 3 but
    not resource 2. *)
Lemma fcfs_release_wakes_head_witness :
  (fcfs_release 2 sample_state = Fault OwnershipViolation) ∧
  (∃ st', fcfs_release 3 sample_state = Ok st' ∧
          resource_at 3 st' = Ok {| owner := None; waitqueue := [] |} ∧
          readyqueue st' = [2; 3; 4] ∧ procs st' = sample_procs) ∧
  (∃ st', fcfs_release 1 sample_state = Ok st' ∧
          resource_at 1 st' = Ok {| owner := None; waitqueue := [6] |} ∧
          procs st' !! 5 = Some (mkProcess 5 PROCESS_READY 1 4 0) ∧
          readyqueue st' = [2; 3; 4; 5]).
Proof.
  split; [|split].
  - apply (proj1 (fcfs_release_wakes_head 2 sample_state
                    {| owner := Some 2; waitqueue := [8] |} eq_refl)).
    discriminate.
  - apply (proj1 (proj2 (fcfs_release_wakes_head 3 sample_state
                    {| owner := Some 1; waitqueue := [] |} eq_refl)));
      reflexivity.
  - apply (proj2 (proj2 (fcfs_release_wakes_head 1 sample_state
                    {| owner := Some 1; waitqueue := [5; 6] |} eq_refl))
             5 [6] (mkProcess 5 PROCESS_WAIT 1 4 0)); reflexivity.
Defined.

(** C10.  A granted [acquire] writes the owner slot of that resource and
    nothing else: the current process, the ready queue, every process
    record, every other resource and the wait queue of the resource itself
    are as before. *)
Theorem fcfs_acquire_granted_frame (resource_id : Z) (st st' : state) :
  fcfs_acquire resource_id st = Ok (true, st') →
  current st' = current st ∧ readyqueue st' = readyqueue st ∧
  procs st' = procs st ∧ ticks st' = ticks st ∧ quiet st' = quiet st ∧
  length (resources st') = length (resources st) ∧
  (∀ j, j ≠ Z.to_nat resource_id →
        resources st' !! j = resources st !! j) ∧
  ∃ r, resources st !! Z.to_nat resource_id = Some r ∧
       owner r = None ∧
       resources st' !! Z.to_nat resource_id =
         Some {| owner := current st; waitqueue := waitqueue r |}.
Proof.
  unfold fcfs_acquire. intros H.
  destruct (resource_at resource_id st) as [r|e] eqn:Hr; [|discriminate].
  rewrite bind_Ok in H. apply resource_at_Ok in Hr as [Hpos Hl].
  destruct (owner r) as [o|] eqn:Ho.
  - destruct (store_status (current st) PROCESS_WAIT st) as [st1|e];
      [|discriminate].
    rewrite bind_Ok in H.
    destruct (current st1); simpl in H; discriminate.
  - injection H as <-. simpl.
    repeat (split; [reflexivity|]).
    split; [apply length_insert|]. split.
    + intros j Hj. by apply list_lookup_insert_ne.
    + exists r. repeat (split; [assumption|]).
      apply list_lookup_insert_eq. eapply lookup_lt_Some, Hl.
Qed.

(** Granting resource 0 on [sample_state] leaves resource 1 as it was. *)
Lemma fcfs_acquire_granted_frame_witness :
  ∃ st', fcfs_acquire 0 sample_state = Ok (true, st') ∧
         current st' = Some 1 ∧ readyqueue st' = [2; 3; 4] ∧
         procs st' = sample_procs ∧
         resources st' !! 1 = Some {| owner := Some 1; waitqueue := [5; 6] |}.
Proof.
  eexists. split; [reflexivity|].
  pose proof (fcfs_acquire_granted_frame 0 sample_state _ eq_refl)
    as (Hc & Hq & Hp & _ & _ & _ & Hothers & _).
  split; [exact Hc|]. split; [exact Hq|]. split; [exact Hp|].
  rewrite (Hothers 1%nat); [reflexivity | discriminate].
Defined.

(** [denied_state] is where a denied [acquire] leaves [sample_state]. *)
Example fcfs_acquire_sample_denied :
  fcfs_acquire 2 sample_state = Ok (false, denied_state).
Proof. reflexivity. Qed.

(** X17.  The precondition of the wake-up in [fcfs_release] is what
    [fcfs_acquire] maintains: waiters stay allocated and [PROCESS_WAIT]. *)
Lemma fcfs_acquire_waiters_waiting rid st b st' :
  waiters_waiting st → fcfs_acquire rid st = Ok (b, st') →
  waiters_waiting st'.
Proof.
  unfold waiters_waiting, fcfs_acquire. intros Hinv H.
  destruct (resource_at rid st) as [r|e] eqn:Hr; [|discriminate].
  rewrite bind_Ok in H. apply resource_at_Ok in Hr as [_ Hl].
  pose proof Hinv as Hinv'. rewrite Forall_forall in Hinv'.
  pose proof (Hinv' r ltac:(eapply list_elem_of_lookup_2, Hl)) as Hq.
  destruct (owner r) as [o|].
  - unfold store_status in H.
    destruct (current st) as [c|] eqn:Hc; [|discriminate].
    destruct (procs st !! c) as [pc|] eqn:Hpc; [|discriminate].
    rewrite bind_Ok in H. cbn [current set_procs] in H.
    rewrite Hc in H. cbn [from_option] in H.
    rewrite bind_Ok in H. injection H as <- <-.
    cbn [resources procs store_resource set_resources set_procs].
    assert (∀ w, (∃ pw, procs st !! w = Some pw ∧ status pw = PROCESS_WAIT) →
                 ∃ pw, <[c:=with_status PROCESS_WAIT pc]> (procs st) !! w
                       = Some pw ∧ status pw = PROCESS_WAIT) as Hkeep.
    { intros w (pw & Hw & Hst). destruct (decide (c = w)) as [->|Hne].
      - eexists. by rewrite lookup_insert_eq.
      - exists pw. by rewrite lookup_insert_ne. }
    apply Forall_insert.
    + eapply Forall_impl; [exact Hinv|]. intros r' Hr'.
      eapply Forall_impl; [exact Hr'|]. exact Hkeep.
    + cbn [waitqueue]. unfold list_add_tail. apply Forall_app. split.
      * eapply Forall_impl; [exact Hq|]. exact Hkeep.
      * constructor; [|constructor]. eexists. by rewrite lookup_insert_eq.
  - injection H as <- <-.
    cbn [resources procs store_resource set_resources].
    by apply Forall_insert.
Qed.

(** ** FIFO *)

Lemma no_current_or_waiting_eligible st c pc :
  current st = Some c → procs st !! c = Some pc → eligible pc →
  no_current_or_waiting st = Ok false.
Proof.
  intros Hc Hpc [Hst _]. unfold no_current_or_waiting.
  rewrite Hc, (deref_Some _ _ _ Hpc), bind_Ok.
  by rewrite bool_decide_eq_false_2.
Qed.

(** With no eligible current process, both non-preemptive schedulers reach
    their picking code: [f] stands for the code after the label. *)
Lemma pick_when_no_eligible_current {A} st (f : result A) (keep : result A) :
  no_eligible_current st →
  (b ← no_current_or_waiting st;
   if (b : bool) then f
   else c ← deref (current st) st;
        if (age c <? lifespan c)%Z then keep else f) = f.
Proof.
  intros [Hnone | (c & pc & Hc & Hpc & Hne)]; unfold no_current_or_waiting.
  - by rewrite Hnone.
  - rewrite Hc, (deref_Some _ _ _ Hpc), !bind_Ok.
    destruct (decide (status pc = PROCESS_WAIT)) as [Hw|Hw].
    + by rewrite bool_decide_eq_true_2.
    + rewrite bool_decide_eq_false_2 by assumption.
      destruct (Z.ltb_spec (age pc) (lifespan pc)); [|reflexivity].
      exfalso. apply Hne. by split.
Qed.

Lemma fifo_schedule_keeps_current st c pc :
  current st = Some c → procs st !! c = Some pc → eligible pc →
  fifo_schedule st = Ok (Some c, st).
Proof.
  intros Hc Hpc Hel. unfold fifo_schedule.
  rewrite (no_current_or_waiting_eligible _ _ _ Hc Hpc Hel), bind_Ok.
  rewrite Hc, (deref_Some _ _ _ Hpc), bind_Ok.
  destruct Hel as [_ Hlt]. apply Z.ltb_lt in Hlt. by rewrite Hlt.
Qed.

(** C7.  FIFO keeps an eligible current process; otherwise it unlinks and
    returns the head of the ready queue, or returns no process when the
    ready queue is empty. *)
Theorem fifo_schedule_spec (st : state) :
  (∀ c pc, current st = Some c → procs st !! c = Some pc → eligible pc →
     fifo_schedule st = Ok (Some c, st)) ∧
  (∀ next q, no_eligible_current st → readyqueue st = next :: q →
     fifo_schedule st = Ok (Some next, set_readyqueue q st)) ∧
  (no_eligible_current st → readyqueue st = [] →
     fifo_schedule st = Ok (None, st)).
Proof.
  split; [|split].
  - intros c pc. apply fifo_schedule_keeps_current.
  - intros next q Hno Hq. unfold fifo_schedule.
    rewrite pick_when_no_eligible_current by assumption.
    unfold fifo_pick_next. by rewrite Hq, list_del_init_head.
  - intros Hno Hq. unfold fifo_schedule.
    rewrite pick_when_no_eligible_current by assumption.
    unfold fifo_pick_next. by rewrite Hq.
Qed.

(** The three cases, on [sample_state], [denied_state] and [idle_state]. *)
Lemma fifo_schedule_spec_witness :
  fifo_schedule sample_state = Ok (Some 1, sample_state) ∧
  fifo_schedule denied_state =
    Ok (Some 2, set_readyqueue [3; 4] denied_state) ∧
  fifo_schedule idle_state = Ok (None, idle_state).
Proof.
  split; [|split].
  - apply (proj1 (fifo_schedule_spec sample_state)
             1 (mkProcess 1 PROCESS_RUNNING 1 5 0));
      [reflexivity | reflexivity |].
    split; [discriminate | reflexivity].
  - apply (proj1 (proj2 (fifo_schedule_spec denied_state)));
      [|reflexivity].
    right. exists 1, (mkProcess 1 PROCESS_WAIT 1 5 0).
    split; [reflexivity|]. split; [reflexivity|].
    intros [Hst _]. by apply Hst.
  - apply (proj2 (proj2 (fifo_schedule_spec idle_state)));
      [left|]; reflexivity.
Defined.

(** ** The earliest-minimum scan *)

Section FirstMinFacts.
Context (key : process → Z) (m : gmap nat process).

Lemma first_min_valid q q1 x q2 :
  first_min key m q q1 x q2 → Forall (λ y, is_Some (m !! y)) q.
Proof.
  intros [-> (px & Hx & H1 & H2)].
  apply Forall_app. split; [|constructor; [by eexists|]].
  - eapply Forall_impl; [exact H1|]. intros y (py & Hy & _). by eexists.
  - eapply Forall_impl; [exact H2|]. intros y (py & Hy & _). by eexists.
Qed.

Lemma first_min_not_before q q1 x q2 :
  first_min key m q q1 x q2 → x ∉ q1.
Proof.
  intros [_ (px & Hx & H1 & _)] Hin.
  rewrite Forall_forall in H1. destruct (H1 x Hin) as (py & Hy & Hlt).
  rewrite Hx in Hy. injection Hy as <-. lia.
Qed.

Lemma first_min_cons y py q q1 x px q2 :
  m !! y = Some py → m !! x = Some px → (key px < key py)%Z →
  first_min key m q q1 x q2 → first_min key m (y :: q) (y :: q1) x q2.
Proof.
  intros Hy Hx Hlt [-> (px' & Hx' & H1 & H2)].
  rewrite Hx in Hx'. injection Hx' as <-.
  split; [reflexivity|]. exists px. split; [assumption|].
  split; [|assumption]. constructor; [|assumption]. by exists py.
Qed.

Lemma first_min_unique q q1 x q2 q1' x' q2' :
  first_min key m q q1 x q2 → first_min key m q q1' x' q2' →
  q1 = q1' ∧ x = x' ∧ q2 = q2'.
Proof.
  intros [-> (px & Hx & H1 & H2)] [Heq (px' & Hx' & H1' & H2')].
  revert q1' Heq H1'. induction q1 as [|y q1 IH]; intros [|y' q1'] Heq H1'.
  - simpl in Heq. injection Heq as -> ->. auto.
  - simpl in Heq. injection Heq as -> ->.
    apply Forall_cons in H1' as [(py & Hy & Hlt) _].
    rewrite Hx in Hy. injection Hy as <-.
    apply Forall_app in H2 as [_ H2].
    apply Forall_cons in H2 as [(py & Hy & Hle) _].
    rewrite Hx' in Hy. injection Hy as <-. lia.
  - simpl in Heq. injection Heq as -> <-.
    apply Forall_cons in H1 as [(py & Hy & Hlt) _].
    rewrite Hx' in Hy. injection Hy as <-.
    apply Forall_app in H2' as [_ H2'].
    apply Forall_cons in H2' as [(py & Hy & Hle) _].
    rewrite Hx in Hy. injection Hy as <-. lia.
  - simpl in Heq. injection Heq as -> Heq.
    apply Forall_cons in H1 as [_ H1].
    apply Forall_cons in H1' as [_ H1'].
    destruct (IH H1 q1' Heq H1') as (-> & -> & ->). auto.
Qed.

(** The scan returns the running best when nothing later beats it, and
    otherwise the earliest minimum of the entries it visits. *)
Lemma scan_min_spec q best pb :
  m !! best = Some pb → Forall (λ y, is_Some (m !! y)) q →
  ∃ r pr, scan_min key m q best = Some r ∧ m !! r = Some pr ∧
    ((r = best ∧
      Forall (λ y, ∃ py, m !! y = Some py ∧ (key pb ≤ key py)%Z) q) ∨
     ((key pr < key pb)%Z ∧ ∃ q1 q2, first_min key m q q1 r q2)).
Proof.
  revert best pb. induction q as [|next q IH]; intros best pb Hb Hall.
  - exists best, pb. split; [reflexivity|]. split; [assumption|].
    left. split; [reflexivity | constructor].
  - apply Forall_cons in Hall as [[pn Hn] Hall].
    cbn [scan_min]. rewrite Hb, Hn. cbn [mbind option_bind].
    destruct (Z.ltb_spec (key pn) (key pb)) as [Hlt|Hge].
    + destruct (IH next pn Hn Hall)
        as (r & pr & Hs & Hr & [[-> Hall'] | [Hlt' (q1 & q2 & Hfm)]]).
      * exists next, pn. split; [assumption|]. split; [assumption|].
        right. split; [assumption|]. exists [], q.
        split; [reflexivity|]. exists pn. split; [assumption|].
        split; [constructor | assumption].
      * exists r, pr. split; [assumption|]. split; [assumption|].
        right. split; [lia|]. exists (next :: q1), q2.
        eapply first_min_cons; eauto.
    + destruct (IH best pb Hb Hall)
        as (r & pr & Hs & Hr & [[-> Hall'] | [Hlt' (q1 & q2 & Hfm)]]).
      * exists best, pb. split; [assumption|]. split; [assumption|].
        left. split; [reflexivity|]. constructor; [|assumption].
        by exists pn.
      * exists r, pr. split; [assumption|]. split; [assumption|].
        right. split; [assumption|]. exists (next :: q1), q2.
        eapply first_min_cons; eauto. lia.
Qed.

(** Started on the head of the queue, as both schedulers start it, the
    scan returns the earliest minimum of the whole queue. *)
Lemma scan_min_first_min q q1 x q2 :
  first_min key m q q1 x q2 →
  ∃ first rest, q = first :: rest ∧ scan_min key m q first = Some x.
Proof.
  intros Hfm. pose proof (first_min_valid _ _ _ _ Hfm) as Hall.
  destruct q as [|first rest].
  { destruct Hfm as [Heq _]. by destruct q1. }
  exists first, rest. split; [reflexivity|].
  pose proof Hall as Hall'.
  apply Forall_cons in Hall' as [[pf Hf] _].
  destruct (scan_min_spec (first :: rest) first pf Hf Hall)
    as (r & pr & Hs & Hr & [[-> Hge] | [_ (q1' & q2' & Hfm')]]).
  - apply Forall_cons in Hge as [_ Hge].
    assert (first_min key m (first :: rest) [] first rest) as Hfm'.
    { split; [reflexivity|]. exists pf. split; [assumption|].
      rewrite Hf in Hr. injection Hr as <-.
      split; [constructor | assumption]. }
    destruct (first_min_unique _ _ _ _ _ _ _ Hfm Hfm') as (_ & -> & _).
    exact Hs.
  - destruct (first_min_unique _ _ _ _ _ _ _ Hfm Hfm') as (_ & -> & _).
    exact Hs.
Qed.

(** A queue whose entries are all allocated has an earliest minimum. *)
Lemma first_min_exists first rest :
  Forall (λ y, is_Some (m !! y)) (first :: rest) →
  ∃ q1 x q2, first_min key m (first :: rest) q1 x q2.
Proof.
  intros Hall. pose proof Hall as Hall'.
  apply Forall_cons in Hall' as [[pf Hf] Hrest].
  destruct (scan_min_spec rest first pf Hf Hrest)
    as (r & pr & _ & Hr & [[-> Hge] | [Hlt (q1 & q2 & Hfm)]]).
  - exists [], first, rest. split; [reflexivity|]. exists pf.
    split; [assumption|]. split; [constructor | assumption].
  - exists (first :: q1), r, q2. eapply first_min_cons; eauto.
Qed.
End FirstMinFacts.

Lemma first_min_ext key key' (m : gmap nat process) q q1 x q2 :
  (∀ y py, y ∈ q → m !! y = Some py → key py = key' py) →
  first_min key m q q1 x q2 → first_min key' m q q1 x q2.
Proof.
  intros Hext [-> (px & Hx & H1 & H2)]. split; [reflexivity|].
  exists px. split; [assumption|].
  assert (key px = key' px) as Hpx.
  { apply (Hext x); [|assumption]. apply elem_of_app. right. left. }
  rewrite Forall_forall in H1, H2. split; apply Forall_forall.
  - intros y Hy. destruct (H1 y Hy) as (py & Hpy & Hlt).
    exists py. split; [assumption|].
    rewrite <- Hpx, <- (Hext y py); [assumption | | assumption].
    apply elem_of_app. by left.
  - intros y Hy. destruct (H2 y Hy) as (py & Hpy & Hle).
    exists py. split; [assumption|].
    rewrite <- Hpx, <- (Hext y py); [assumption | | assumption].
    apply elem_of_app. right. by right.
Qed.

Lemma remaining_time_left p : proc_ok p → remaining p = time_left p.
Proof.
  intros (H0 & Hle & Hmax). unfold remaining, usub, time_left.
  apply Z.mod_small. lia.
Qed.

(** ** SJF *)

Lemma sjf_scan_scan_min q st best r :
  current st = Some best →
  scan_min lifespan (procs st) q best = Some r →
  sjf_scan q st = Ok (set_current (Some r) st).
Proof.
  revert st best. induction q as [|next q IH]; intros st best Hc.
  - intros [= <-]. simpl. rewrite <- Hc. by destruct st.
  - cbn [scan_min sjf_scan]. rewrite Hc.
    destruct (procs st !! best) as [pb|] eqn:Hb; [|discriminate].
    destruct (procs st !! next) as [pn|] eqn:Hn; [|discriminate].
    cbn [mbind option_bind].
    rewrite (deref_Some _ _ _ Hb), (deref_Some _ _ _ Hn), !bind_Ok.
    rewrite Z.gtb_ltb.
    destruct (lifespan pn <? lifespan pb)%Z; intros Hscan.
    + by rewrite (IH (set_current (Some next) st) next).
    + by apply (IH st best).
Qed.

(** The picking code of SJF on a ready queue with earliest minimum [x]. *)
Lemma sjf_skip_first_min st q1 x q2 :
  first_min lifespan (procs st) (readyqueue st) q1 x q2 →
  sjf_skip st =
    Ok (Some x, set_readyqueue (q1 ++ q2) (set_current (Some x) st)).
Proof.
  intros Hfm.
  destruct (scan_min_first_min _ _ _ _ _ _ Hfm)
    as (first & rest & Hq & Hscan).
  unfold sjf_skip. rewrite Hq at 1.
  rewrite (sjf_scan_scan_min _ (set_current (Some first) st) first x);
    [|reflexivity|exact Hscan].
  rewrite bind_Ok. cbn [current set_current from_option]. rewrite bind_Ok.
  cbn [readyqueue set_current].
  destruct Hfm as [Heq Hrest]. rewrite Heq at 1.
  rewrite list_del_init_middle; [reflexivity|].
  eapply first_min_not_before. split; [exact Heq | exact Hrest].
Qed.

(** C6.  When SJF has to pick, it unlinks and returns the earliest entry of
    the ready queue with the least lifespan: every entry before it has a
    strictly larger lifespan, every entry after it one at least as large. *)
Theorem sjf_schedule_picks_first_shortest (st : state) (q1 : list ptr)
    (x : ptr) (q2 : list ptr) :
  no_eligible_current st →
  first_min lifespan (procs st) (readyqueue st) q1 x q2 →
  sjf_schedule st =
    Ok (Some x, set_readyqueue (q1 ++ q2) (set_current (Some x) st)).
Proof.
  intros Hno Hfm. unfold sjf_schedule.
  rewrite pick_when_no_eligible_current by assumption.
  by apply sjf_skip_first_min.
Qed.

(** On [denied_state] the ready queue holds lifespans 3, 2 and 2: the first
    process of lifespan 2 is picked. *)
Lemma sjf_schedule_picks_first_shortest_witness :
  sjf_schedule denied_state =
    Ok (Some 3, set_readyqueue [2; 4] (set_current (Some 3) denied_state)).
Proof.
  apply (sjf_schedule_picks_first_shortest denied_state [2] 3 [4]).
  - right. exists 1, (mkProcess 1 PROCESS_WAIT 1 5 0).
    split; [reflexivity|]. split; [reflexivity|].
    intros [Hst _]. by apply Hst.
  - split; [reflexivity|]. exists (mkProcess 3 PROCESS_READY 0 2 0).
    split; [reflexivity|]. split.
    + constructor; [|constructor].
      exists (mkProcess 2 PROCESS_READY 0 3 0).
      split; [reflexivity | simpl; lia].
    + constructor; [|constructor].
      exists (mkProcess 4 PROCESS_READY 0 2 0).
      split; [reflexivity | simpl; lia].
Defined.

(** ** SRTF *)

Lemma srtf_scan_scan_min q st init r :
  scan_min remaining (procs st) q init = Some r →
  srtf_scan q init st = Ok r.
Proof.
  revert init. induction q as [|next q IH]; intros init.
  - by intros [= <-].
  - cbn [scan_min srtf_scan].
    destruct (procs st !! init) as [pi|] eqn:Hi; [|discriminate].
    destruct (procs st !! next) as [pn|] eqn:Hn; [|discriminate].
    cbn [mbind option_bind].
    rewrite (deref_Some _ _ _ Hi), (deref_Some _ _ _ Hn), !bind_Ok.
    rewrite Z.gtb_ltb.
    destruct (remaining pn <? remaining pi)%Z; apply IH.
Qed.

(** SRTF with an eligible current process and a non-empty ready queue, in
    the unsigned arithmetic of the code. *)
Lemma srtf_schedule_current_vs_min st c pc q1 x px q2 :
  current st = Some c → procs st !! c = Some pc → eligible pc →
  first_min remaining (procs st) (readyqueue st) q1 x q2 →
  procs st !! x = Some px →
  srtf_schedule st =
    if (remaining px <? remaining pc)%Z
    then Ok (Some x, set_readyqueue (c :: q1 ++ q2) st)
    else Ok (Some c, st).
Proof.
  intros Hc Hpc Hel Hfm Hpx. unfold srtf_schedule.
  destruct (scan_min_first_min _ _ _ _ _ _ Hfm)
    as (first & rest & Hq & Hscan).
  rewrite Hq at 1.
  rewrite (srtf_scan_scan_min _ _ _ _ Hscan), bind_Ok.
  rewrite (no_current_or_waiting_eligible _ _ _ Hc Hpc Hel), bind_Ok.
  rewrite Hc, (deref_Some _ _ _ Hpc), bind_Ok.
  destruct Hel as [_ Hlt]. apply Z.ltb_lt in Hlt. rewrite Hlt.
  rewrite (deref_Some _ _ _ Hpx), bind_Ok.
  destruct (remaining px <? remaining pc)%Z; [|reflexivity].
  cbn [from_option]. rewrite bind_Ok. unfold list_add.
  destruct Hfm as [Heq Hrest]. rewrite Heq at 1.
  rewrite list_del_init_middle; [reflexivity|].
  eapply first_min_not_before. split; [exact Heq | exact Hrest].
Qed.

(** C3.  SRTF with an eligible current process and a non-empty ready queue
    whose earliest entry of least remaining time is [x]: the current
    process goes on when its remaining time is at most that of [x];
    otherwise [x] is unlinked, the current process is linked at the head of
    the ready queue, and [x] is returned. *)
Theorem srtf_schedule_eligible_current (st : state) (c : ptr) (pc : process)
    (q1 : list ptr) (x : ptr) (px : process) (q2 : list ptr) :
  current st = Some c → procs st !! c = Some pc →
  eligible pc → proc_ok pc →
  Forall (λ y, ∃ py, procs st !! y = Some py ∧ proc_ok py) (readyqueue st) →
  first_min time_left (procs st) (readyqueue st) q1 x q2 →
  procs st !! x = Some px →
  ((time_left pc ≤ time_left px)%Z →
   srtf_schedule st = Ok (Some c, st)) ∧
  ((time_left px < time_left pc)%Z →
   srtf_schedule st = Ok (Some x, set_readyqueue (c :: q1 ++ q2) st)).
Proof.
  intros Hc Hpc Hel Hok Hall Hfm Hpx.
  rewrite Forall_forall in Hall.
  assert (first_min remaining (procs st) (readyqueue st) q1 x q2) as Hfm'.
  { eapply first_min_ext; [|exact Hfm]. intros y py Hy Hpy.
    destruct (Hall y Hy) as (py' & Hpy' & Hok').
    rewrite Hpy in Hpy'. injection Hpy' as <-.
    symmetry. by apply remaining_time_left. }
  assert (proc_ok px) as Hokx.
  { destruct Hfm as [Heq _].
    destruct (Hall x) as (px' & Hpx' & Hok').
    - rewrite Heq. apply elem_of_app. right. left.
    - rewrite Hpx in Hpx'. by injection Hpx' as <-. }
  rewrite (srtf_schedule_current_vs_min _ _ _ _ _ _ _ Hc Hpc Hel Hfm' Hpx).
  rewrite (remaining_time_left _ Hok), (remaining_time_left _ Hokx).
  split; intros Hcmp.
  - destruct (Z.ltb_spec (time_left px) (time_left pc)); [lia|reflexivity].
  - destruct (Z.ltb_spec (time_left px) (time_left pc)); [reflexivity|lia].
Qed.

(** On [later_state] the current process ties with the best ready process
    and goes on; on [sample_state] it is preempted. *)
Lemma srtf_schedule_eligible_current_witness :
  srtf_schedule later_state = Ok (Some 1, later_state) ∧
  srtf_schedule sample_state =
    Ok (Some 3, set_readyqueue [1; 2; 4] sample_state).
Proof.
  assert (∀ m : gmap nat process,
            m !! 2%nat = Some (mkProcess 2 PROCESS_READY 0 3 0) →
            m !! 3%nat = Some (mkProcess 3 PROCESS_READY 0 2 0) →
            m !! 4%nat = Some (mkProcess 4 PROCESS_READY 0 2 0) →
            Forall (λ y, ∃ py, m !! y = Some py ∧ proc_ok py) [2; 3; 4]%nat ∧
            first_min time_left m [2; 3; 4]%nat [2]%nat 3%nat [4]%nat)
    as Hready.
  { intros m H2 H3 H4. split.
    - repeat constructor; eexists; (split; [eassumption|]);
        unfold proc_ok; simpl; lia.
    - split; [reflexivity|]. eexists. split; [exact H3|].
      split; (constructor; [|constructor]); eexists;
        (split; [eassumption|]); unfold time_left; simpl; lia. }
  destruct (Hready (procs later_state) eq_refl eq_refl eq_refl)
    as [Hall' Hfm'].
  destruct (Hready (procs sample_state) eq_refl eq_refl eq_refl)
    as [Hall Hfm].
  assert (eligible (mkProcess 1 PROCESS_RUNNING 3 5 0)) as Hel'
    by (split; [discriminate | reflexivity]).
  assert (eligible (mkProcess 1 PROCESS_RUNNING 1 5 0)) as Hel
    by (split; [discriminate | reflexivity]).
  assert (proc_ok (mkProcess 1 PROCESS_RUNNING 3 5 0)) as Hok'
    by (unfold proc_ok; simpl; lia).
  assert (proc_ok (mkProcess 1 PROCESS_RUNNING 1 5 0)) as Hok
    by (unfold proc_ok; simpl; lia).
  split.
  - apply (proj1 (srtf_schedule_eligible_current later_state
                    1 (mkProcess 1 PROCESS_RUNNING 3 5 0)
                    [2] 3 (mkProcess 3 PROCESS_READY 0 2 0) [4]
                    eq_refl eq_refl Hel' Hok' Hall' Hfm' eq_refl)).
    unfold time_left; simpl; lia.
  - apply (proj2 (srtf_schedule_eligible_current sample_state
                    1 (mkProcess 1 PROCESS_RUNNING 1 5 0)
                    [2] 3 (mkProcess 3 PROCESS_READY 0 2 0) [4]
                    eq_refl eq_refl Hel Hok Hall Hfm eq_refl)).
    unfold time_left; simpl; lia.
Defined.

(** SRTF with no eligible current process and a non-empty ready queue: the
    earliest entry of least remaining time is unlinked and returned. *)
Lemma srtf_schedule_no_eligible_current st q1 x q2 :
  no_eligible_current st →
  first_min remaining (procs st) (readyqueue st) q1 x q2 →
  srtf_schedule st = Ok (Some x, set_readyqueue (q1 ++ q2) st).
Proof.
  intros Hno Hfm. unfold srtf_schedule.
  destruct (scan_min_first_min _ _ _ _ _ _ Hfm)
    as (first & rest & Hq & Hscan).
  rewrite Hq at 1.
  rewrite (srtf_scan_scan_min _ _ _ _ Hscan), bind_Ok.
  assert (list_del_init x (readyqueue st) = q1 ++ q2) as Hdel.
  { destruct Hfm as [Heq Hrest]. rewrite Heq at 1.
    apply list_del_init_middle.
    eapply first_min_not_before. split; [exact Heq | exact Hrest]. }
  rewrite Hdel.
  destruct Hno as [Hnone | (c & pc & Hc & Hpc & Hne)];
    unfold no_current_or_waiting.
  - by rewrite Hnone.
  - rewrite Hc, (deref_Some _ _ _ Hpc), !bind_Ok.
    destruct (decide (status pc = PROCESS_WAIT)) as [Hw|Hw].
    + by rewrite bool_decide_eq_true_2.
    + rewrite bool_decide_eq_false_2 by assumption.
      destruct (Z.ltb_spec (age pc) (lifespan pc)); [|reflexivity].
      exfalso. apply Hne. by split.
Qed.

(** SRTF on an empty ready queue with a current process: the status of the
    current process is never read. *)
Lemma srtf_schedule_empty_queue st c pc :
  readyqueue st = [] → current st = Some c → procs st !! c = Some pc →
  srtf_schedule st =
    if (age pc <? lifespan pc)%Z then Ok (Some c, st) else Ok (None, st).
Proof.
  intros Hq Hc Hpc. unfold srtf_schedule, current_or_running.
  rewrite Hq, Hc, bind_Ok, (deref_Some _ _ _ Hpc), bind_Ok. reflexivity.
Qed.

(** C4.  With an empty ready queue and no current process, [srtf_schedule]
    evaluates [current->status] on the null pointer: the call faults instead
    of returning no process. *)
Theorem srtf_schedule_idle_faults (st : state) :
  readyqueue st = [] → current st = None →
  srtf_schedule st = Fault NullDeref.
Proof.
  intros Hq Hc. unfold srtf_schedule, current_or_running, deref.
  by rewrite Hq, Hc.
Qed.

(** The fault on [idle_state]. *)
Lemma srtf_schedule_idle_faults_witness :
  srtf_schedule idle_state = Fault NullDeref.
Proof. apply srtf_schedule_idle_faults; reflexivity. Defined.

(** C5.  With an empty ready queue, [srtf_schedule] returns a current
    process that is blocked ([PROCESS_WAIT]) and so not eligible. *)
Theorem srtf_schedule_returns_blocked_current :
  srtf_schedule blocked_state = Ok (Some 8, blocked_state) ∧
  ∃ p, procs blocked_state !! 8 = Some p ∧ status p = PROCESS_WAIT ∧
       ¬ eligible p.
Proof.
  split.
  - by rewrite (srtf_schedule_empty_queue blocked_state 8
                  (mkProcess 8 PROCESS_WAIT 0 3 0)).
  - exists (mkProcess 8 PROCESS_WAIT 0 3 0).
    split; [reflexivity|]. split; [reflexivity|]. intros [Hst _]. by apply Hst.
Qed.

(** ** Incomplete policy tables *)



(** ** Determinism *)

(** No callback reads or writes [ticks] or [quiet]: changing them before a
    call is the same as changing them after it. *)

Lemma core_eq_set_env st1 st2 :
  core_eq st1 st2 ↔ st2 = set_env (ticks st2) (quiet st2) st1.
Proof.
  destruct st1, st2. unfold core_eq, set_env. simpl. split.
  - intros (-> & -> & -> & ->). reflexivity.
  - intros [= -> -> -> ->]. auto.
Qed.

Lemma core_eq_refl_env t b st : core_eq st (set_env t b st).
Proof. repeat split. Qed.

Lemma same_outcome_map_state {A} t b (r : result (A * state)) :
  same_outcome r (map_state (set_env t b) r).
Proof.
  destruct r as [[a s]|e]; simpl; [|reflexivity].
  split; [reflexivity | apply core_eq_refl_env].
Qed.

Lemma same_final_map_final t b (r : result state) :
  same_final r (map_final (set_env t b) r).
Proof. destruct r as [s|e]; simpl; [apply core_eq_refl_env | reflexivity]. Qed.

Lemma deref_set_env p t b st : deref p (set_env t b st) = deref p st.
Proof. reflexivity. Qed.

Lemma resource_at_set_env rid t b st :
  resource_at rid (set_env t b st) = resource_at rid st.
Proof. reflexivity. Qed.

Lemma store_status_set_env p s t b st :
  store_status p s (set_env t b st) =
  map_final (set_env t b) (store_status p s st).
Proof.
  unfold store_status. destruct p as [a|]; [|reflexivity].
  cbn [procs set_env]. by destruct (procs st !! a).
Qed.

Lemma no_current_or_waiting_set_env t b st :
  no_current_or_waiting (set_env t b st) = no_current_or_waiting st.
Proof. reflexivity. Qed.

Lemma fcfs_acquire_set_env t b rid st :
  fcfs_acquire rid (set_env t b st) =
  map_state (set_env t b) (fcfs_acquire rid st).
Proof.
  unfold fcfs_acquire. rewrite resource_at_set_env.
  destruct (resource_at rid st) as [r|e]; [|reflexivity].
  rewrite !bind_Ok. destruct (owner r); [|reflexivity].
  rewrite store_status_set_env. cbn [current set_env].
  destruct (store_status (current st) PROCESS_WAIT st) as [st1|e];
    [|reflexivity].
  cbn [map_final]. rewrite !bind_Ok. cbn [current set_env].
  by destruct (current st1).
Qed.

Lemma fcfs_release_set_env t b rid st :
  fcfs_release rid (set_env t b st) =
  map_final (set_env t b) (fcfs_release rid st).
Proof.
  unfold fcfs_release. rewrite resource_at_set_env.
  destruct (resource_at rid st) as [r|e]; [|reflexivity].
  rewrite !bind_Ok. cbn [current set_env].
  destruct (decide (owner r = current st)) as [Ho|Ho]; [|reflexivity].
  destruct (waitqueue r) as [|w ws]; [reflexivity|].
  rewrite !deref_store_resource, deref_set_env.
  destruct (deref (Some w) st) as [pw|e]; [|reflexivity].
  rewrite !bind_Ok.
  destruct (decide (status pw = PROCESS_WAIT)) as [Hw|Hw]; [|reflexivity].
  unfold store_status. cbn [procs store_resource set_resources set_env].
  by destruct (procs st !! w).
Qed.

Lemma fifo_schedule_set_env t b st :
  fifo_schedule (set_env t b st) =
  map_state (set_env t b) (fifo_schedule st).
Proof.
  unfold fifo_schedule.
  rewrite no_current_or_waiting_set_env, deref_set_env.
  cbn [current set_env].
  assert (fifo_pick_next (set_env t b st) =
          map_state (set_env t b) (fifo_pick_next st)) as Hpick.
  { unfold fifo_pick_next. cbn [readyqueue set_env].
    by destruct (readyqueue st). }
  destruct (no_current_or_waiting st) as [[]|e];
    [rewrite !bind_Ok; assumption| |reflexivity].
  rewrite !bind_Ok. destruct (deref (current st) st) as [c|e]; [|reflexivity].
  rewrite !bind_Ok. by destruct (age c <? lifespan c)%Z.
Qed.

Lemma sjf_scan_set_env t b q st :
  sjf_scan q (set_env t b st) = map_final (set_env t b) (sjf_scan q st).
Proof.
  revert st. induction q as [|next q IH]; intros st; [reflexivity|].
  cbn [sjf_scan]. rewrite !deref_set_env. cbn [current set_env].
  destruct (deref (current st) st) as [c|e]; [|reflexivity].
  rewrite !bind_Ok. destruct (deref (Some next) st) as [n|e]; [|reflexivity].
  rewrite !bind_Ok. destruct (lifespan c >? lifespan n)%Z; [|apply IH].
  apply (IH (set_current (Some next) st)).
Qed.

Lemma sjf_schedule_set_env t b st :
  sjf_schedule (set_env t b st) = map_state (set_env t b) (sjf_schedule st).
Proof.
  unfold sjf_schedule.
  rewrite no_current_or_waiting_set_env, deref_set_env.
  cbn [current set_env].
  assert (sjf_skip (set_env t b st) = map_state (set_env t b) (sjf_skip st))
    as Hskip.
  { unfold sjf_skip. cbn [readyqueue set_env].
    destruct (readyqueue st) as [|first rest]; [reflexivity|].
    rewrite (sjf_scan_set_env t b _ (set_current (Some first) st)).
    destruct (sjf_scan _ (set_current (Some first) st)) as [st1|e];
      [|reflexivity].
    cbn [map_final]. rewrite !bind_Ok. cbn [current set_env].
    by destruct (current st1). }
  destruct (no_current_or_waiting st) as [[]|e];
    [rewrite !bind_Ok; assumption| |reflexivity].
  rewrite !bind_Ok. destruct (deref (current st) st) as [c|e]; [|reflexivity].
  rewrite !bind_Ok. by destruct (age c <? lifespan c)%Z.
Qed.

Lemma srtf_scan_set_env t b q init st :
  srtf_scan q init (set_env t b st) = srtf_scan q init st.
Proof.
  revert init. induction q as [|next q IH]; intros init; [reflexivity|].
  cbn [srtf_scan]. rewrite !deref_set_env.
  destruct (deref (Some init) st) as [i|e]; [|reflexivity].
  rewrite !bind_Ok. destruct (deref (Some next) st) as [n|e]; [|reflexivity].
  rewrite !bind_Ok. by destruct (remaining i >? remaining n)%Z.
Qed.

Lemma srtf_schedule_set_env t b st :
  srtf_schedule (set_env t b st) =
  map_state (set_env t b) (srtf_schedule st).
Proof.
  unfold srtf_schedule, current_or_running. cbn [readyqueue current set_env].
  rewrite no_current_or_waiting_set_env, !deref_set_env.
  destruct (readyqueue st) as [|first rest].
  - destruct (current st) as [c|]; [|reflexivity].
    rewrite !bind_Ok. destruct (deref (Some c) st) as [pc|e]; [|reflexivity].
    rewrite !bind_Ok. by destruct (age pc <? lifespan pc)%Z.
  - rewrite srtf_scan_set_env.
    destruct (srtf_scan (first :: rest) first st) as [init|e]; [|reflexivity].
    rewrite !bind_Ok.
    destruct (no_current_or_waiting st) as [[]|e]; [reflexivity| |reflexivity].
    rewrite !bind_Ok.
    destruct (deref (current st) st) as [c|e]; [|reflexivity].
    rewrite !bind_Ok.
    destruct (age c <? lifespan c)%Z; [|reflexivity].
    rewrite deref_set_env.
    destruct (deref (Some init) st) as [i|e]; [|reflexivity].
    rewrite !bind_Ok.
    destruct (remaining i <? remaining c)%Z; [|reflexivity].
    by destruct (current st).
Qed.

Lemma invoke_set_env s c t b st :
  s ∈ policies →
  invoke s c (set_env t b st) = map_state (set_env t b) (invoke s c st).
Proof.
  unfold policies. rewrite !elem_of_cons, elem_of_nil.
  intros [->|[->|[->|[->|[->|[->|[]]]]]]]; destruct c as [|rid|rid];
    cbn [invoke schedule acquire release fifo_scheduler sjf_scheduler
         srtf_scheduler rr_scheduler prio_scheduler pip_scheduler
         from_option];
    rewrite ?bind_Ok, ?bind_Fault; try reflexivity;
    rewrite ?fifo_schedule_set_env, ?sjf_schedule_set_env,
      ?srtf_schedule_set_env, ?fcfs_acquire_set_env, ?fcfs_release_set_env.
  all: try (match goal with
            | |- context [map_state _ ?r] => by destruct r as [[? ?]|?]
            end).
  all: match goal with
       | |- context [map_final _ ?r] => by destruct r
       end.
Qed.

Lemma run_set_env s cs t b st :
  s ∈ policies →
  run s cs (set_env t b st) =
  ((run s cs st).1, map_final (set_env t b) (run s cs st).2).
Proof.
  intros Hs. revert st. induction cs as [|c cs IH]; intros st; [reflexivity|].
  cbn [run]. rewrite invoke_set_env by assumption.
  destruct (invoke s c st) as [[v st']|e]; [|reflexivity].
  cbn [map_state]. rewrite IH. by destruct (run s cs st').
Qed.

(** C9.  The callbacks are functions of the current process, the ready
    queue, the resource table and the process records: from two states that
    agree on these, each operation returns the same value (or fails the same
    way) and leaves states that agree on them again, and so does every
    sequence of calls into one of the policies. *)
Theorem core_operations_deterministic (st1 st2 : state) :
  core_eq st1 st2 →
  (∀ rid, same_outcome (fcfs_acquire rid st1) (fcfs_acquire rid st2)) ∧
  (∀ rid, same_final (fcfs_release rid st1) (fcfs_release rid st2)) ∧
  same_outcome (fifo_schedule st1) (fifo_schedule st2) ∧
  same_outcome (sjf_schedule st1) (sjf_schedule st2) ∧
  same_outcome (srtf_schedule st1) (srtf_schedule st2) ∧
  (∀ s cs, s ∈ policies →
     (run s cs st1).1 = (run s cs st2).1 ∧
     same_final (run s cs st1).2 (run s cs st2).2).
Proof.
  intros Heq. apply core_eq_set_env in Heq. rewrite Heq.
  generalize (ticks st2) (quiet st2). intros t b.
  repeat split.
  - intros rid. rewrite fcfs_acquire_set_env. apply same_outcome_map_state.
  - intros rid. rewrite fcfs_release_set_env. apply same_final_map_final.
  - rewrite fifo_schedule_set_env. apply same_outcome_map_state.
  - rewrite sjf_schedule_set_env. apply same_outcome_map_state.
  - rewrite srtf_schedule_set_env. apply same_outcome_map_state.
  - rewrite run_set_env by assumption. reflexivity.
  - rewrite run_set_env by assumption. apply same_final_map_final.
Qed.

(** [sample_state] at another tick count and in quiet mode. *)
Lemma core_operations_deterministic_witness :
  same_outcome (srtf_schedule sample_state)
    (srtf_schedule (set_env 99 true sample_state)) ∧
  (run fifo_scheduler [Schedule; Acquire 2; Schedule; Release 3]
     sample_state).1 =
  (run fifo_scheduler [Schedule; Acquire 2; Schedule; Release 3]
     (set_env 99 true sample_state)).1.
Proof.
  assert (core_eq sample_state (set_env 99 true sample_state)) as Heq
    by (repeat split).
  assert (fifo_scheduler ∈ policies) as Hin by (left).
  pose proof (core_operations_deterministic _ _ Heq)
    as (_ & _ & _ & _ & Hsrtf & Hrun).
  split; [exact Hsrtf|]. exact (proj1 (Hrun _ _ Hin)).
Defined.

(** ** Eligibility of what the non-preemptive schedulers return *)

Lemma current_cases st :
  no_eligible_current st ∨
  (∃ c pc, current st = Some c ∧ procs st !! c = Some pc ∧ eligible pc) ∨
  (∃ c, current st = Some c ∧ procs st !! c = None).
Proof.
  destruct (current st) as [c|] eqn:Hc; [|left; by left].
  destruct (procs st !! c) as [pc|] eqn:Hpc; [|right; right; by exists c].
  destruct (decide (eligible pc)).
  - right. left. by exists c, pc.
  - left. right. by exists c, pc.
Qed.

Lemma no_current_or_waiting_dangling st c :
  current st = Some c → procs st !! c = None →
  no_current_or_waiting st = Fault InvalidPointer.
Proof.
  intros Hc Hpc. unfold no_current_or_waiting, deref. by rewrite Hc, Hpc.
Qed.

(** X18.  Over a ready queue of eligible processes, FIFO returns only
    eligible processes. *)
Lemma fifo_schedule_returns_eligible st p st' :
  ready_ok st → fifo_schedule st = Ok (Some p, st') →
  ∃ pp, procs st' !! p = Some pp ∧ eligible pp.
Proof.
  intros Hok H.
  destruct (current_cases st)
    as [Hno | [(c & pc & Hc & Hpc & Hel) | (c & Hc & Hpc)]].
  - unfold fifo_schedule in H.
    rewrite pick_when_no_eligible_current in H by assumption.
    unfold fifo_pick_next, ready_ok in *.
    destruct (readyqueue st) as [|next q]; [discriminate|].
    injection H as <- <-.
    by apply Forall_cons in Hok as [Hnext _].
  - rewrite (fifo_schedule_keeps_current st c pc Hc Hpc Hel) in H.
    injection H as <- <-. by exists pc.
  - unfold fifo_schedule in H.
    rewrite (no_current_or_waiting_dangling _ _ Hc Hpc) in H. discriminate.
Qed.

(** X19.  Over a ready queue of eligible processes, SJF returns only
    eligible processes. *)
Lemma sjf_schedule_returns_eligible st p st' :
  ready_ok st → sjf_schedule st = Ok (Some p, st') →
  ∃ pp, procs st' !! p = Some pp ∧ eligible pp.
Proof.
  intros Hok H.
  destruct (current_cases st)
    as [Hno | [(c & pc & Hc & Hpc & Hel) | (c & Hc & Hpc)]].
  - destruct (readyqueue st) as [|first rest] eqn:Hq.
    + unfold sjf_schedule in H.
      rewrite pick_when_no_eligible_current in H by assumption.
      unfold sjf_skip in H. rewrite Hq in H. discriminate.
    + assert (Forall (λ y, is_Some (procs st !! y)) (first :: rest)) as Hall.
      { rewrite <- Hq. eapply Forall_impl; [exact Hok|].
        intros y (py & Hy & _). by eexists. }
      destruct (first_min_exists lifespan _ _ _ Hall) as (q1 & x & q2 & Hfm).
      rewrite <- Hq in Hfm. unfold sjf_schedule in H.
      rewrite pick_when_no_eligible_current in H by assumption.
      rewrite (sjf_skip_first_min st q1 x q2 Hfm) in H.
      injection H as <- <-. cbn [procs set_readyqueue set_current].
      unfold ready_ok in Hok. rewrite Forall_forall in Hok. apply Hok.
      destruct Hfm as [-> _]. apply elem_of_app. right. left.
  - unfold sjf_schedule in H.
    rewrite (no_current_or_waiting_eligible _ _ _ Hc Hpc Hel), bind_Ok in H.
    rewrite Hc, (deref_Some _ _ _ Hpc), bind_Ok in H.
    destruct Hel as [Hst Hlt]. pose proof Hlt as Hlt'.
    apply Z.ltb_lt in Hlt'. rewrite Hlt' in H.
    injection H as <- <-. exists pc. by repeat split.
  - unfold sjf_schedule in H.
    rewrite (no_current_or_waiting_dangling _ _ Hc Hpc) in H. discriminate.
Qed.

(** ** What a schedule call can do *)


Lemma list_del_init_subseteq p q y : y ∈ list_del_init p q → y ∈ q.
Proof.
  induction q as [|x q IH]; simpl; [done|].
  destruct (decide (x = p)).
  - intros Hy. by right.
  - intros [->|Hy]%elem_of_cons; [left | right; auto].
Qed.

Lemma list_del_init_keeps p q y : y ∈ q → y ≠ p → y ∈ list_del_init p q.
Proof.
  induction q as [|x q IH]; simpl; [done|].
  intros [->|Hy]%elem_of_cons Hne.
  - destruct (decide (x = p)); [congruence | left].
  - destruct (decide (x = p)); [assumption | right; auto].
Qed.

Lemma list_del_init_NoDup p q :
  NoDup q → NoDup (list_del_init p q) ∧ p ∉ list_del_init p q.
Proof.
  induction q as [|x q IH]; simpl; intros Hnd.
  - split; [constructor | apply not_elem_of_nil].
  - apply NoDup_cons in Hnd as [Hx Hnd].
    destruct (decide (x = p)) as [->|Hne]; [by split|].
    destruct (IH Hnd) as [Hnd' Hp]. split.
    + apply NoDup_cons. split; [|assumption].
      intros Hin. by apply Hx, (list_del_init_subseteq p).
    + intros [->|Hin]%elem_of_cons; [congruence | contradiction].
Qed.

(** The scans return an entry they visited, or what they started from. *)
Lemma srtf_scan_elem q init st r :
  srtf_scan q init st = Ok r → r = init ∨ r ∈ q.
Proof.
  revert init. induction q as [|next q IH]; intros init.
  - intros [= <-]. by left.
  - cbn [srtf_scan].
    destruct (deref (Some init) st) as [i|e]; [|discriminate].
    rewrite bind_Ok.
    destruct (deref (Some next) st) as [n|e]; [|discriminate].
    rewrite bind_Ok. destruct (remaining i >? remaining n)%Z; intros H.
    + destruct (IH _ H) as [->|Hin]; right; [left | by right].
    + destruct (IH _ H) as [->|Hin]; [by left | right; by right].
Qed.

Lemma sjf_scan_elem q st st1 :
  sjf_scan q st = Ok st1 →
  ∃ r, st1 = set_current r st ∧
       (r = current st ∨ ∃ x, r = Some x ∧ x ∈ q).
Proof.
  revert st. induction q as [|next q IH]; intros st.
  - intros [= <-]. exists (current st). split; [by destruct st | by left].
  - cbn [sjf_scan].
    destruct (deref (current st) st) as [c|e]; [|discriminate].
    rewrite bind_Ok.
    destruct (deref (Some next) st) as [n|e]; [|discriminate].
    rewrite bind_Ok. destruct (lifespan c >? lifespan n)%Z; intros H.
    + destruct (IH _ H) as (r & -> & [->|(x & -> & Hx)]).
      * exists (Some next). split; [reflexivity|].
        right. exists next. split; [reflexivity | left].
      * exists (Some x). split; [reflexivity|].
        right. exists x. split; [reflexivity | by right].
    + destruct (IH _ H) as (r & -> & [->|(x & -> & Hx)]).
      * exists (current st). split; [reflexivity | by left].
      * exists (Some x). split; [reflexivity|].
        right. exists x. split; [reflexivity | by right].
Qed.

(** The continuation rule FIFO and SJF share, read backwards: a result is
    either the eligible current process with the state untouched, or the
    result of the picking code [pick] reached with no eligible current. *)
Lemma continuation_inv st (pick : result (option ptr * state)) r st' :
  (b ← no_current_or_waiting st;
   if (b : bool) then pick
   else c ← deref (current st) st;
        if (age c <? lifespan c)%Z then Ok (current st, st) else pick)
    = Ok (r, st') →
  (r = current st ∧ st' = st ∧
   ∃ c pc, current st = Some c ∧ procs st !! c = Some pc ∧ eligible pc) ∨
  (pick = Ok (r, st') ∧ no_eligible_current st).
Proof.
  destruct (current_cases st)
    as [Hno | [(c & pc & Hc & Hpc & Hel) | (c & Hc & Hpc)]].
  - rewrite pick_when_no_eligible_current by assumption. by right.
  - rewrite (no_current_or_waiting_eligible _ _ _ Hc Hpc Hel), bind_Ok.
    rewrite Hc, (deref_Some _ _ _ Hpc), bind_Ok.
    pose proof Hel as [_ Hlt]. apply Z.ltb_lt in Hlt. rewrite Hlt.
    intros [= <- <-]. left. split; [reflexivity|]. split; [reflexivity|].
    by exists c, pc.
  - by rewrite (no_current_or_waiting_dangling _ _ Hc Hpc).
Qed.

Lemma fifo_pick_next_inv st r st' :
  fifo_pick_next st = Ok (r, st') →
  (r = None ∧ st' = st ∧ readyqueue st = []) ∨
  (∃ p, r = Some p ∧ p ∈ readyqueue st ∧
        st' = set_readyqueue (list_del_init p (readyqueue st)) st).
Proof.
  unfold fifo_pick_next. destruct (readyqueue st) as [|next q] eqn:Hq.
  - intros [= <- <-]. by left.
  - intros [= <- <-]. right. exists next.
    split; [reflexivity|]. split; [left | reflexivity].
Qed.

Lemma sjf_skip_inv st r st' :
  sjf_skip st = Ok (r, st') →
  (r = None ∧ st' = st ∧ readyqueue st = []) ∨
  (∃ p, r = Some p ∧ p ∈ readyqueue st ∧
        st' = set_readyqueue (list_del_init p (readyqueue st))
                (set_current (Some p) st)).
Proof.
  unfold sjf_skip. destruct (readyqueue st) as [|first rest] eqn:Hq.
  - intros [= <- <-]. by left.
  - destruct (sjf_scan (first :: rest) (set_current (Some first) st))
      as [st1|e] eqn:Hscan; [|discriminate].
    rewrite bind_Ok.
    destruct (sjf_scan_elem _ _ _ Hscan) as (c & -> & Hc).
    cbn [current set_current readyqueue].
    assert (∃ p, c = Some p ∧ p ∈ first :: rest) as (p & -> & Hp).
    { destruct Hc as [->|(x & -> & Hx)]; eexists; (split; [reflexivity|]);
        [left | assumption]. }
    cbn [from_option]. rewrite bind_Ok, Hq. intros [= <- <-].
    right. exists p. split; [reflexivity|]. split; [assumption|reflexivity].
Qed.

(** Every [schedule] callback leaves the resources, the process records,
    [ticks] and [quiet] alone, and changes the ready queue by [rq_pick] or
    [rq_step]. *)
Lemma fifo_schedule_inv st r st' :
  fifo_schedule st = Ok (r, st') →
  st' = set_readyqueue (readyqueue st') st ∧
  rq_pick (current st) (readyqueue st) r (readyqueue st').
Proof.
  unfold fifo_schedule. intros H.
  apply continuation_inv in H as [(-> & -> & _) | [H _]].
  - split; [by destruct st|]. left. split; [reflexivity | by left].
  - apply fifo_pick_next_inv in H as [(-> & -> & _) | (p & -> & Hp & ->)].
    + split; [by destruct st|]. left. split; [reflexivity | by right].
    + split; [reflexivity|]. right. by exists p.
Qed.

Lemma sjf_schedule_inv st r st' :
  sjf_schedule st = Ok (r, st') →
  st' = set_readyqueue (readyqueue st') (set_current (current st') st) ∧
  rq_pick (current st) (readyqueue st) r (readyqueue st') ∧
  (r = None → st' = st) ∧ (∀ p, r = Some p → current st' = Some p).
Proof.
  unfold sjf_schedule. intros H.
  apply continuation_inv in H as [(-> & -> & _) | [H _]].
  - split; [by destruct st|]. split; [|split; [done|]].
    + left. split; [reflexivity | by left].
    + by intros p ->.
  - apply sjf_skip_inv in H as [(-> & -> & _) | (p & -> & Hp & ->)].
    + split; [by destruct st|]. split; [|split; [done|discriminate]].
      left. split; [reflexivity | by right].
    + split; [reflexivity|]. split; [|split; [discriminate|]].
      * right. by exists p.
      * by intros ? [= <-].
Qed.

Lemma srtf_schedule_inv st r st' :
  srtf_schedule st = Ok (r, st') →
  st' = set_readyqueue (readyqueue st') st ∧
  rq_step (current st) (readyqueue st) r (readyqueue st').
Proof.
  unfold srtf_schedule. destruct (readyqueue st) as [|first rest] eqn:Hq.
  - unfold current_or_running.
    destruct (current st) as [c|] eqn:Hc; [|discriminate].
    rewrite bind_Ok.
    destruct (deref (Some c) st) as [pc|e]; [|discriminate].
    rewrite bind_Ok.
    destruct (age pc <? lifespan pc)%Z; intros [= <- <-];
      (split; [destruct st; simpl in *; by subst|]);
      left; left; rewrite Hq; (split; [reflexivity|]); [left | right]; done.
  - destruct (srtf_scan (first :: rest) first st) as [init|e] eqn:Hscan;
      [|discriminate].
    rewrite bind_Ok.
    assert (init ∈ first :: rest) as Hin.
    { destruct (srtf_scan_elem _ _ _ _ Hscan) as [->|?]; [left | done]. }
    destruct (no_current_or_waiting st) as [[]|e]; [| |discriminate];
      rewrite bind_Ok.
    { intros [= <- <-]. split; [reflexivity|]. left. right. by exists init. }
    destruct (deref (current st) st) as [pc|e]; [|discriminate].
    rewrite bind_Ok. destruct (age pc <? lifespan pc)%Z.
    + destruct (deref (Some init) st) as [pi|e]; [|discriminate].
      rewrite bind_Ok. destruct (remaining pi <? remaining pc)%Z.
      * destruct (current st) as [c|] eqn:Hc; [|discriminate].
        cbn [from_option]. rewrite bind_Ok. intros [= <- <-].
        split; [reflexivity|]. right. by exists init, c.
      * intros [= <- <-]. split; [destruct st; simpl in *; by subst|].
        left. left. split; [by rewrite Hq | by left].
    + intros [= <- <-]. split; [reflexivity|]. left. right. by exists init.
Qed.

Lemma schedulers_inv f st r st' :
  f ∈ schedulers → f st = Ok (r, st') →
  resources st' = resources st ∧ procs st' = procs st ∧
  ticks st' = ticks st ∧ quiet st' = quiet st ∧
  rq_step (current st) (readyqueue st) r (readyqueue st').
Proof.
  unfold schedulers. rewrite !elem_of_cons, elem_of_nil.
  intros [->|[->|[->|[]]]] H.
  - apply fifo_schedule_inv in H as [-> Hstep]. repeat split. by left.
  - apply sjf_schedule_inv in H as (-> & Hstep & _). repeat split. by left.
  - apply srtf_schedule_inv in H as [-> Hstep]. by repeat split.
Qed.

Lemma rq_step_members c q r q' :
  rq_step c q r q' →
  (∀ y, y ∈ q → y ∈ q' ∨ r = Some y) ∧
  (∀ y, y ∈ q' → y ∈ q ∨ c = Some y).
Proof.
  intros [[[-> _] | (p & -> & Hp & ->)] | (p & a & -> & -> & Hp & ->)].
  - split; intros y Hy; by left.
  - split; intros y Hy.
    + destruct (decide (y = p)) as [->|Hne]; [by right|].
      left. by apply list_del_init_keeps.
    + left. by apply (list_del_init_subseteq p).
  - split; intros y Hy.
    + destruct (decide (y = p)) as [->|Hne]; [by right|].
      left. right. by apply list_del_init_keeps.
    + apply elem_of_cons in Hy as [->|Hy]; [by right|].
      left. by apply (list_del_init_subseteq p).
Qed.

Lemma rq_step_NoDup c q r q' :
  rq_step c q r q' → NoDup q → (∀ a, c = Some a → a ∉ q) →
  NoDup q' ∧ ∀ p, r = Some p → p ∉ q'.
Proof.
  intros [[[-> Hr] | (p & -> & Hp & ->)] | (p & a & -> & -> & Hp & ->)]
    Hnd Hc.
  - split; [assumption|]. intros p ->.
    destruct Hr as [<-|?]; [by apply Hc | discriminate].
  - destruct (list_del_init_NoDup p q Hnd) as [Hnd' Hp'].
    split; [assumption|]. by intros ? [= <-].
  - destruct (list_del_init_NoDup p q Hnd) as [Hnd' Hp'].
    pose proof (Hc a eq_refl) as Ha. split.
    + apply NoDup_cons. split; [|assumption].
      intros Hin. by apply Ha, (list_del_init_subseteq p).
    + intros ? [= <-]. intros [->|Hin]%elem_of_cons; contradiction.
Qed.

(** X1.  No [schedule] callback writes a resource, a process record (in
    particular no status), [ticks] or [quiet]. *)
Theorem schedule_leaves_processes_and_resources
    (f : state → result (option ptr * state)) (st : state)
    (r : option ptr) (st' : state) :
  f ∈ schedulers → f st = Ok (r, st') →
  resources st' = resources st ∧ procs st' = procs st ∧
  ticks st' = ticks st ∧ quiet st' = quiet st.
Proof.
  intros Hf H.
  destruct (schedulers_inv f st r st' Hf H) as (? & ? & ? & ? & _). auto.
Qed.

(** A preemption by SRTF on [sample_state] leaves process 1 running on
    record and resource 1 in its hands. *)
Lemma schedule_leaves_processes_and_resources_witness :
  ∃ st', srtf_schedule sample_state = Ok (Some 3, st') ∧
         procs st' !! 1 = Some (mkProcess 1 PROCESS_RUNNING 1 5 0) ∧
         resources st' !! 1 = Some {| owner := Some 1; waitqueue := [5; 6] |}.
Proof.
  eexists. split; [reflexivity|].
  assert (srtf_schedule ∈ schedulers) as Hf by (right; right; left).
  destruct (schedule_leaves_processes_and_resources srtf_schedule
              sample_state _ _ Hf eq_refl) as (Hr & Hp & _).
  rewrite Hp, Hr. split; reflexivity.
Defined.

(** X2.  FIFO and SRTF never write the global [current]; SJF, which scans
    with it, leaves it pointing at the process it returns and leaves the
    whole state alone when it returns no process. *)
Theorem schedule_current_slot (st : state) (r : option ptr) (st' : state) :
  (fifo_schedule st = Ok (r, st') → current st' = current st) ∧
  (srtf_schedule st = Ok (r, st') → current st' = current st) ∧
  (sjf_schedule st = Ok (r, st') →
   (r = None → st' = st) ∧ (∀ p, r = Some p → current st' = Some p)).
Proof.
  split; [|split]; intros H.
  - by apply fifo_schedule_inv in H as [-> _].
  - by apply srtf_schedule_inv in H as [-> _].
  - apply sjf_schedule_inv in H as (_ & _ & ? & ?). auto.
Qed.

(** On [denied_state] FIFO leaves process 1 in [current]; SJF puts the
    process it picked there. *)
Lemma schedule_current_slot_witness :
  (∃ st', fifo_schedule denied_state = Ok (Some 2, st') ∧
          current st' = Some 1) ∧
  (∃ st', sjf_schedule denied_state = Ok (Some 3, st') ∧
          current st' = Some 3).
Proof.
  split; eexists; (split; [reflexivity|]).
  - exact (proj1 (schedule_current_slot denied_state (Some 2) _) eq_refl).
  - exact (proj2 (proj2 (proj2 (schedule_current_slot denied_state (Some 3) _))
                   eq_refl) 3 eq_refl).
Defined.

(** X3.  A [schedule] call loses no ready process and lets nothing foreign
    in: every process on the ready queue before the call is on it afterwards
    or is the one returned, and every process on it afterwards was on it
    before or was the current process. *)
Theorem schedule_loses_no_ready_process
    (f : state → result (option ptr * state)) (st : state)
    (r : option ptr) (st' : state) :
  f ∈ schedulers → f st = Ok (r, st') →
  (∀ y, y ∈ readyqueue st → y ∈ readyqueue st' ∨ r = Some y) ∧
  (∀ y, y ∈ readyqueue st' → y ∈ readyqueue st ∨ current st = Some y).
Proof.
  intros Hf H.
  destruct (schedulers_inv f st r st' Hf H) as (_ & _ & _ & _ & Hstep).
  by apply rq_step_members in Hstep.
Qed.

(** After the preemption on [sample_state], ready process 4 is still
    ready. *)
Lemma schedule_loses_no_ready_process_witness :
  ∃ st', srtf_schedule sample_state = Ok (Some 3, st') ∧
         (4 ∈ readyqueue st' ∨ Some 3 = Some 4).
Proof.
  eexists. split; [reflexivity|].
  assert (srtf_schedule ∈ schedulers) as Hf by (right; right; left).
  apply (proj1 (schedule_loses_no_ready_process srtf_schedule
                  sample_state _ _ Hf eq_refl) 4).
  right. right. left.
Defined.

(** X4.  A [schedule] call keeps the ready queue free of duplicates and
    takes the process it returns off it, provided the ready queue had no
    duplicates and did not hold the current process. *)
Theorem schedule_keeps_ready_queue_duplicate_free
    (f : state → result (option ptr * state)) (st : state)
    (r : option ptr) (st' : state) :
  f ∈ schedulers → f st = Ok (r, st') →
  NoDup (readyqueue st) → (∀ c, current st = Some c → c ∉ readyqueue st) →
  NoDup (readyqueue st') ∧ ∀ p, r = Some p → p ∉ readyqueue st'.
Proof.
  intros Hf H Hnd Hc.
  destruct (schedulers_inv f st r st' Hf H) as (_ & _ & _ & _ & Hstep).
  by apply (rq_step_NoDup _ _ _ _ Hstep).
Qed.

Lemma schedule_keeps_ready_queue_duplicate_free_witness :
  ∃ st', srtf_schedule sample_state = Ok (Some 3, st') ∧
         NoDup (readyqueue st') ∧ 3 ∉ readyqueue st'.
Proof.
  eexists. split; [reflexivity|].
  assert (srtf_schedule ∈ schedulers) as Hf by (right; right; left).
  assert (NoDup (readyqueue sample_state)) as Hnd.
  { cbn [readyqueue sample_state]. no_dup_list. }
  assert (∀ c, current sample_state = Some c → c ∉ readyqueue sample_state)
    as Hc.
  { intros c [= <-]. cbn [readyqueue sample_state]. not_in_list. }
  destruct (schedule_keeps_ready_queue_duplicate_free srtf_schedule
              sample_state _ _ Hf eq_refl Hnd Hc) as [Hnd' Hp].
  split; [exact Hnd' | exact (Hp 3 eq_refl)].
Defined.



(** ** More on SJF and SRTF *)

(** X6.  SJF does not preempt: an eligible current process is returned and
    the state is untouched, whatever the ready queue holds; with no eligible
    current process and an empty ready queue it returns no process. *)
Theorem sjf_schedule_never_preempts (st : state) :
  (∀ c pc, current st = Some c → procs st !! c = Some pc → eligible pc →
     sjf_schedule st = Ok (Some c, st)) ∧
  (no_eligible_current st → readyqueue st = [] →
     sjf_schedule st = Ok (None, st)).
Proof.
  split.
  - intros c pc Hc Hpc Hel. unfold sjf_schedule.
    rewrite (no_current_or_waiting_eligible _ _ _ Hc Hpc Hel), bind_Ok.
    rewrite Hc, (deref_Some _ _ _ Hpc), bind_Ok.
    destruct Hel as [_ Hlt]. apply Z.ltb_lt in Hlt. by rewrite Hlt.
  - intros Hno Hq. unfold sjf_schedule.
    rewrite pick_when_no_eligible_current by assumption.
    unfold sjf_skip. by rewrite Hq.
Qed.

(** On [sample_state] process 1 (lifespan 5) goes on although processes of
    lifespan 3 and 2 are ready. *)
Lemma sjf_schedule_never_preempts_witness :
  sjf_schedule sample_state = Ok (Some 1, sample_state) ∧
  sjf_schedule blocked_state = Ok (None, blocked_state).
Proof.
  split.
  - apply (proj1 (sjf_schedule_never_preempts sample_state)
             1 (mkProcess 1 PROCESS_RUNNING 1 5 0));
      [reflexivity | reflexivity |].
    split; [discriminate | reflexivity].
  - apply (proj2 (sjf_schedule_never_preempts blocked_state));
      [|reflexivity].
    right. exists 8, (mkProcess 8 PROCESS_WAIT 0 3 0).
    split; [reflexivity|]. split; [reflexivity|].
    intros [Hst _]. by apply Hst.
Defined.

Lemma first_min_time_left_remaining st q1 x q2 :
  Forall (λ y, ∃ py, procs st !! y = Some py ∧ proc_ok py) (readyqueue st) →
  first_min time_left (procs st) (readyqueue st) q1 x q2 →
  first_min remaining (procs st) (readyqueue st) q1 x q2.
Proof.
  intros Hall Hfm. rewrite Forall_forall in Hall.
  eapply first_min_ext; [|exact Hfm]. intros y py Hy Hpy.
  destruct (Hall y Hy) as (py' & Hpy' & Hok').
  rewrite Hpy in Hpy'. injection Hpy' as <-.
  symmetry. by apply remaining_time_left.
Qed.

(** X7.  SRTF with no eligible current process and a non-empty ready queue
    whose earliest entry of least remaining time is [x] unlinks and returns
    [x]; the ineligible current process is not put back on the ready
    queue. *)
Theorem srtf_schedule_replaces_ineligible_current (st : state)
    (q1 : list ptr) (x : ptr) (q2 : list ptr) :
  no_eligible_current st →
  Forall (λ y, ∃ py, procs st !! y = Some py ∧ proc_ok py) (readyqueue st) →
  first_min time_left (procs st) (readyqueue st) q1 x q2 →
  srtf_schedule st = Ok (Some x, set_readyqueue (q1 ++ q2) st).
Proof.
  intros Hno Hall Hfm. apply srtf_schedule_no_eligible_current; [done|].
  by apply first_min_time_left_remaining.
Qed.

(** On [denied_state] the ready queue holds remaining times 3, 2 and 2. *)
Lemma srtf_schedule_replaces_ineligible_current_witness :
  srtf_schedule denied_state =
    Ok (Some 3, set_readyqueue [2; 4] denied_state).
Proof.
  apply (srtf_schedule_replaces_ineligible_current denied_state [2] 3 [4]).
  - right. exists 1, (mkProcess 1 PROCESS_WAIT 1 5 0).
    split; [reflexivity|]. split; [reflexivity|].
    intros [Hst _]. by apply Hst.
  - repeat constructor.
    + exists (mkProcess 2 PROCESS_READY 0 3 0).
      split; [reflexivity | unfold proc_ok; simpl; lia].
    + exists (mkProcess 3 PROCESS_READY 0 2 0).
      split; [reflexivity | unfold proc_ok; simpl; lia].
    + exists (mkProcess 4 PROCESS_READY 0 2 0).
      split; [reflexivity | unfold proc_ok; simpl; lia].
  - split; [reflexivity|]. exists (mkProcess 3 PROCESS_READY 0 2 0).
    split; [reflexivity|]. split.
    + constructor; [|constructor].
      exists (mkProcess 2 PROCESS_READY 0 3 0).
      split; [reflexivity | unfold time_left; simpl; lia].
    + constructor; [|constructor].
      exists (mkProcess 4 PROCESS_READY 0 2 0).
      split; [reflexivity | unfold time_left; simpl; lia].
Defined.

Lemma srtf_scan_valid q init st r :
  srtf_scan q init st = Ok r → Forall (λ y, is_Some (procs st !! y)) q.
Proof.
  revert init. induction q as [|next q IH]; intros init; [constructor|].
  cbn [srtf_scan].
  destruct (deref (Some init) st) as [i|e]; [|discriminate].
  rewrite bind_Ok. unfold deref at 1.
  destruct (procs st !! next) as [n|] eqn:Hn; [|discriminate].
  rewrite bind_Ok. intros H. constructor; [by eexists|].
  destruct (remaining i >? remaining n)%Z; eapply IH, H.
Qed.

(** The cases of SRTF on a non-empty ready queue with earliest minimum
    [x]. *)
Lemma srtf_schedule_nonempty_cases st q1 x q2 px :
  first_min remaining (procs st) (readyqueue st) q1 x q2 →
  procs st !! x = Some px →
  (no_eligible_current st ∧
   srtf_schedule st = Ok (Some x, set_readyqueue (q1 ++ q2) st)) ∨
  (∃ c pc, current st = Some c ∧ procs st !! c = Some pc ∧ eligible pc ∧
     srtf_schedule st =
       if (remaining px <? remaining pc)%Z
       then Ok (Some x, set_readyqueue (c :: q1 ++ q2) st)
       else Ok (Some c, st)) ∨
  srtf_schedule st = Fault InvalidPointer.
Proof.
  intros Hfm Hpx.
  destruct (current_cases st)
    as [Hno | [(c & pc & Hc & Hpc & Hel) | (c & Hc & Hpc)]].
  - left. split; [assumption|]. by apply srtf_schedule_no_eligible_current.
  - right. left. exists c, pc. repeat (split; [assumption|]).
    by apply srtf_schedule_current_vs_min.
  - right. right. unfold srtf_schedule.
    destruct (scan_min_first_min _ _ _ _ _ _ Hfm)
      as (first & rest & Hq & Hscan).
    rewrite Hq at 1. rewrite (srtf_scan_scan_min _ _ _ _ Hscan), bind_Ok.
    by rewrite (no_current_or_waiting_dangling _ _ Hc Hpc).
Qed.

Lemma srtf_schedule_first_min st r st' :
  readyqueue st ≠ [] → srtf_schedule st = Ok (r, st') →
  ∃ q1 x q2, first_min remaining (procs st) (readyqueue st) q1 x q2.
Proof.
  intros Hne H. unfold srtf_schedule in H.
  destruct (readyqueue st) as [|first rest] eqn:Hq; [done|].
  destruct (srtf_scan (first :: rest) first st) as [init|e] eqn:Hscan;
    [|discriminate].
  by apply first_min_exists, (srtf_scan_valid _ _ _ _ Hscan).
Qed.

(** X8.  Over a ready queue of eligible processes that is not empty, SRTF
    returns only eligible processes. *)
Theorem srtf_schedule_returns_eligible (st : state) (p : ptr) (st' : state) :
  ready_ok st → readyqueue st ≠ [] →
  srtf_schedule st = Ok (Some p, st') →
  ∃ pp, procs st' !! p = Some pp ∧ eligible pp.
Proof.
  intros Hok Hne H.
  destruct (srtf_schedule_first_min _ _ _ Hne H) as (q1 & x & q2 & Hfm).
  assert (∃ px, procs st !! x = Some px ∧ eligible px) as (px & Hpx & Helx).
  { unfold ready_ok in Hok. rewrite Forall_forall in Hok. apply Hok.
    destruct Hfm as [-> _]. apply elem_of_app. right. left. }
  destruct (srtf_schedule_nonempty_cases _ _ _ _ _ Hfm Hpx)
    as [[_ Hr] | [(c & pc & Hc & Hpc & Hel & Hr) | Hr]];
    rewrite Hr in H.
  - injection H as <- <-. by exists px.
  - destruct (remaining px <? remaining pc)%Z; injection H as <- <-.
    + by exists px.
    + by exists pc.
  - discriminate.
Qed.

Lemma srtf_schedule_returns_eligible_witness :
  ∃ pp, procs (set_readyqueue [1; 2; 4] sample_state) !! 3 = Some pp ∧
        eligible pp.
Proof.
  apply (srtf_schedule_returns_eligible sample_state 3).
  - repeat constructor.
    + exists (mkProcess 2 PROCESS_READY 0 3 0).
      split; [reflexivity | split; [discriminate | reflexivity]].
    + exists (mkProcess 3 PROCESS_READY 0 2 0).
      split; [reflexivity | split; [discriminate | reflexivity]].
    + exists (mkProcess 4 PROCESS_READY 0 2 0).
      split; [reflexivity | split; [discriminate | reflexivity]].
  - discriminate.
  - reflexivity.
Defined.

(** X9.  Whatever SRTF returns from a non-empty ready queue has, in the
    unsigned arithmetic of the code, the least remaining time among the
    ready processes and an eligible current process. *)
Theorem srtf_schedule_returns_least_remaining (st : state) (p : ptr)
    (st' : state) :
  readyqueue st ≠ [] → srtf_schedule st = Ok (Some p, st') →
  ∃ pp, procs st !! p = Some pp ∧
    Forall (λ y, ∃ py, procs st !! y = Some py ∧
                       (remaining pp ≤ remaining py)%Z) (readyqueue st) ∧
    ∀ c pc, current st = Some c → procs st !! c = Some pc → eligible pc →
            (remaining pp ≤ remaining pc)%Z.
Proof.
  intros Hne H.
  destruct (srtf_schedule_first_min _ _ _ Hne H) as (q1 & x & q2 & Hfm).
  pose proof Hfm as [Hq (px & Hpx & H1 & H2)].
  assert (∀ pp, (remaining pp ≤ remaining px)%Z →
            Forall (λ y, ∃ py, procs st !! y = Some py ∧
                               (remaining pp ≤ remaining py)%Z)
                   (readyqueue st)) as Hleast.
  { intros pp Hle. rewrite Hq. apply Forall_app. split; [|constructor].
    - eapply Forall_impl; [exact H1|]. intros y (py & Hy & Hlt).
      exists py. split; [assumption | lia].
    - by exists px.
    - eapply Forall_impl; [exact H2|]. intros y (py & Hy & Hlt).
      exists py. split; [assumption | lia]. }
  destruct (srtf_schedule_nonempty_cases _ _ _ _ _ Hfm Hpx)
    as [[Hno Hr] | [(c & pc & Hc & Hpc & Hel & Hr) | Hr]];
    rewrite Hr in H.
  - injection H as <- <-. exists px. split; [assumption|].
    split; [by apply Hleast|]. intros c pc Hc Hpc Hel.
    destruct Hno as [Hnone | (c' & pc' & Hc' & Hpc' & Hnel)]; [congruence|].
    rewrite Hc in Hc'. injection Hc' as <-.
    rewrite Hpc in Hpc'. by injection Hpc' as <-.
  - destruct (Z.ltb_spec (remaining px) (remaining pc)) as [Hlt|Hge];
      injection H as <- <-.
    + exists px. split; [assumption|]. split; [by apply Hleast|].
      intros c' pc' Hc' Hpc' _. rewrite Hc in Hc'. injection Hc' as <-.
      rewrite Hpc in Hpc'. injection Hpc' as <-. lia.
    + exists pc. split; [assumption|]. split; [by apply Hleast|].
      intros c' pc' Hc' Hpc' _. rewrite Hc in Hc'. injection Hc' as <-.
      rewrite Hpc in Hpc'. by injection Hpc' as <-.
  - discriminate.
Qed.

Lemma srtf_schedule_returns_least_remaining_witness :
  ∃ pp, procs sample_state !! 3 = Some pp ∧
    Forall (λ y, ∃ py, procs sample_state !! y = Some py ∧
                       (remaining pp ≤ remaining py)%Z) [2; 3; 4] ∧
    ∀ c pc, current sample_state = Some c →
            procs sample_state !! c = Some pc → eligible pc →
            (remaining pp ≤ remaining pc)%Z.
Proof.
  apply (srtf_schedule_returns_least_remaining sample_state 3
           (set_readyqueue [1; 2; 4] sample_state)).
  - discriminate.
  - reflexivity.
Defined.

(** ** More on the resource protocol *)

Lemma waiters_split st i r :
  resources st !! i = Some r →
  waiters st =
    concat (waitqueue <$> take i (resources st)) ++ waitqueue r ++
    concat (waitqueue <$> drop (S i) (resources st)).
Proof.
  intros Hl. unfold waiters.
  rewrite <- (take_drop_middle _ _ _ Hl) at 1.
  by rewrite fmap_app, fmap_cons, concat_app, concat_cons.
Qed.

Lemma waiters_store_resource st rid r r' :
  resources st !! Z.to_nat rid = Some r →
  waiters (store_resource rid r' st) =
    concat (waitqueue <$> take (Z.to_nat rid) (resources st)) ++
    waitqueue r' ++
    concat (waitqueue <$> drop (S (Z.to_nat rid)) (resources st)).
Proof.
  intros Hl. unfold waiters. cbn [resources store_resource set_resources].
  rewrite insert_take_drop by (eapply lookup_lt_Some, Hl).
  by rewrite fmap_app, fmap_cons, concat_app, concat_cons.
Qed.

Lemma waiters_waiting_Forall st :
  waiters_waiting st ↔
  Forall (λ w, ∃ pw, procs st !! w = Some pw ∧ status pw = PROCESS_WAIT)
         (waiters st).
Proof.
  unfold waiters_waiting, waiters. rewrite Forall_concat, Forall_fmap.
  reflexivity.
Qed.

(** What a successful [fcfs_acquire] leaves behind. *)
Lemma fcfs_acquire_inv rid st b st' :
  fcfs_acquire rid st = Ok (b, st') →
  ∃ r, resources st !! Z.to_nat rid = Some r ∧
    ((b = true ∧ owner r = None ∧
      st' = store_resource rid
              {| owner := current st; waitqueue := waitqueue r |} st) ∨
     (b = false ∧ ∃ o c pc, owner r = Some o ∧ current st = Some c ∧
        procs st !! c = Some pc ∧
        st' = store_resource rid
                {| owner := Some o; waitqueue := waitqueue r ++ [c] |}
                (set_procs (<[c := with_status PROCESS_WAIT pc]> (procs st))
                   st))).
Proof.
  unfold fcfs_acquire. intros H.
  destruct (resource_at rid st) as [r|e] eqn:Hr; [|discriminate].
  rewrite bind_Ok in H. apply resource_at_Ok in Hr as [_ Hl].
  exists r. split; [assumption|]. destruct (owner r) as [o|] eqn:Ho.
  - right. unfold store_status in H.
    destruct (current st) as [c|] eqn:Hc; [|discriminate].
    destruct (procs st !! c) as [pc|] eqn:Hpc; [|discriminate].
    rewrite bind_Ok in H. cbn [current set_procs] in H.
    rewrite Hc in H. cbn [from_option] in H. rewrite bind_Ok in H.
    injection H as <- <-. split; [reflexivity|]. by exists o, c, pc.
  - left. injection H as <- <-. by repeat split.
Qed.

(** What a successful [fcfs_release] leaves behind. *)
Lemma fcfs_release_inv rid st st' :
  fcfs_release rid st = Ok st' →
  ∃ r, resources st !! Z.to_nat rid = Some r ∧ owner r = current st ∧
    ((waitqueue r = [] ∧
      st' = store_resource rid {| owner := None; waitqueue := [] |} st) ∨
     (∃ w ws pw, waitqueue r = w :: ws ∧ procs st !! w = Some pw ∧
        status pw = PROCESS_WAIT ∧
        st' = set_readyqueue (readyqueue st ++ [w])
                (set_procs (<[w := with_status PROCESS_READY pw]> (procs st))
                   (store_resource rid {| owner := None; waitqueue := ws |}
                      st)))).
Proof.
  unfold fcfs_release. intros H.
  destruct (resource_at rid st) as [r|e] eqn:Hr; [|discriminate].
  rewrite bind_Ok in H. apply resource_at_Ok in Hr as [_ Hl].
  exists r. split; [assumption|].
  destruct (decide (owner r = current st)) as [Ho|Ho]; [|discriminate].
  split; [assumption|].
  destruct (waitqueue r) as [|w ws] eqn:Hq.
  - left. injection H as <-. by split.
  - right. rewrite deref_store_resource in H. unfold deref in H.
    destruct (procs st !! w) as [pw|] eqn:Hpw; [|discriminate].
    rewrite bind_Ok in H.
    destruct (decide (status pw = PROCESS_WAIT)) as [Hw|Hw]; [|discriminate].
    erewrite store_status_Some in H
      by (rewrite !procs_store_resource; exact Hpw).
    rewrite bind_Ok in H. injection H as <-.
    exists w, ws, pw. repeat (split; [done|]).
    destruct (decide (w = w)); [|done]. unfold list_add_tail.
    destruct st. unfold store_resource, set_resources, set_procs,
      set_readyqueue. simpl. by rewrite list_insert_insert_eq.
Qed.

(** X10.  [fcfs_acquire] returns true only for a free resource and never
    overwrites an occupied owner slot, of the requested resource or of any
    other. *)
Theorem fcfs_acquire_respects_owners (resource_id : Z) (st : state)
    (b : bool) (st' : state) :
  fcfs_acquire resource_id st = Ok (b, st') →
  (b = true ↔
   ∃ r, resources st !! Z.to_nat resource_id = Some r ∧ owner r = None) ∧
  (∀ j rj o, resources st !! j = Some rj → owner rj = Some o →
     ∃ rj', resources st' !! j = Some rj' ∧ owner rj' = Some o).
Proof.
  intros H.
  destruct (fcfs_acquire_inv _ _ _ _ H)
    as (r & Hl & [(-> & Ho & ->) | (-> & o & c & pc & Ho & _ & _ & ->)]).
  - split; [split; [by exists r | reflexivity]|].
    intros j rj o' Hj Hoj. cbn [resources store_resource set_resources].
    destruct (decide (j = Z.to_nat resource_id)) as [->|Hne].
    + rewrite Hl in Hj. injection Hj as <-. congruence.
    + exists rj. by rewrite list_lookup_insert_ne.
  - split.
    + split; [discriminate|]. intros (r' & Hl' & Ho'). congruence.
    + intros j rj o' Hj Hoj.
      cbn [resources store_resource set_resources set_procs].
      destruct (decide (j = Z.to_nat resource_id)) as [->|Hne].
      * rewrite Hl in Hj. injection Hj as <-. eexists.
        rewrite list_lookup_insert_eq by (eapply lookup_lt_Some, Hl).
        split; [reflexivity|]. cbn [owner]. congruence.
      * exists rj. by rewrite list_lookup_insert_ne.
Qed.

(** Process 1 asks for resource 2, which process 2 holds. *)
Lemma fcfs_acquire_respects_owners_witness :
  (false = true ↔
   ∃ r, resources sample_state !! Z.to_nat 2 = Some r ∧ owner r = None) ∧
  ∃ rj', resources denied_state !! 2 = Some rj' ∧ owner rj' = Some 2.
Proof.
  pose proof (fcfs_acquire_respects_owners 2 sample_state false denied_state
                eq_refl) as [Hb Ho].
  split; [exact Hb|].
  exact (Ho 2%nat {| owner := Some 2; waitqueue := [8] |} 2%nat
           eq_refl eq_refl).
Defined.

(** X11.  Mutual exclusion: once [fcfs_acquire] has granted a resource to
    the current process, every later [fcfs_acquire] on it, by whatever
    process, is denied for as long as the resource table is not written. *)
Theorem fcfs_acquire_mutual_exclusion (resource_id : Z) (st st1 : state)
    (c : ptr) (st2 : state) (b : bool) (st3 : state) :
  current st = Some c →
  fcfs_acquire resource_id st = Ok (true, st1) →
  resources st2 = resources st1 →
  fcfs_acquire resource_id st2 = Ok (b, st3) →
  b = false ∧
  ∃ r3, resources st3 !! Z.to_nat resource_id = Some r3 ∧ owner r3 = Some c.
Proof.
  intros Hc H1 Hres H2.
  destruct (fcfs_acquire_inv _ _ _ _ H1)
    as (r & Hl & [(_ & Ho & ->) | (? & _)]); [|discriminate].
  assert (resources st2 !! Z.to_nat resource_id =
          Some {| owner := Some c; waitqueue := waitqueue r |}) as Hl2.
  { rewrite Hres. cbn [resources store_resource set_resources].
    rewrite list_lookup_insert_eq by (eapply lookup_lt_Some, Hl).
    by rewrite Hc. }
  destruct (fcfs_acquire_inv _ _ _ _ H2)
    as (r2 & Hl2' & [(_ & Ho2 & _) | (-> & o & c2 & pc2 & Ho2 & _ & _ & ->)]);
    rewrite Hl2 in Hl2'; injection Hl2' as <-; [discriminate|].
  split; [reflexivity|]. eexists.
  cbn [resources store_resource set_resources set_procs].
  rewrite list_lookup_insert_eq by (eapply lookup_lt_Some, Hl2).
  split; [reflexivity|]. cbn [owner] in *. congruence.
Qed.

(** Process 1 takes the free resource 0 of [sample_state]; process 2 then
    asks for it. *)
Lemma fcfs_acquire_mutual_exclusion_witness :
  ∃ st1 st3 b,
    fcfs_acquire 0 sample_state = Ok (true, st1) ∧
    fcfs_acquire 0 (set_current (Some 2) st1) = Ok (b, st3) ∧
    b = false ∧
    ∃ r3, resources st3 !! Z.to_nat 0 = Some r3 ∧ owner r3 = Some 1.
Proof.
  set (st1 := store_resource 0 {| owner := Some 1; waitqueue := [] |}
                sample_state).
  exists st1. eexists _, _. split; [reflexivity|]. split; [reflexivity|].
  exact (fcfs_acquire_mutual_exclusion 0 sample_state st1 1
           (set_current (Some 2) st1) _ _
           eq_refl eq_refl eq_refl eq_refl).
Defined.

(** X12.  Round trip: taking a free resource that nobody waits for and
    releasing it again gives back the state before the two calls. *)
Theorem fcfs_acquire_release_round_trip (resource_id : Z) (st : state)
    (r : resource) :
  resource_at resource_id st = Ok r → owner r = None → waitqueue r = [] →
  ∃ st1, fcfs_acquire resource_id st = Ok (true, st1) ∧
         fcfs_release resource_id st1 = Ok st.
Proof.
  intros Hr Ho Hq. pose proof Hr as Hr'.
  apply resource_at_Ok in Hr' as [Hpos Hl].
  unfold fcfs_acquire. rewrite Hr, bind_Ok, Ho, Hq.
  eexists. split; [reflexivity|]. unfold fcfs_release.
  rewrite (resource_at_store _ _ _ _ Hr), bind_Ok.
  cbn [owner waitqueue current store_resource set_resources].
  destruct (decide (current st = current st)); [|done].
  f_equal. destruct st as [cur rq rs ps t qu].
  unfold store_resource, set_resources. cbn in *.
  rewrite list_insert_insert_eq, list_insert_id; [reflexivity|].
  rewrite Hl. destruct r. simpl in *. by subst.
Qed.

Lemma fcfs_acquire_release_round_trip_witness :
  ∃ st1, fcfs_acquire 0 sample_state = Ok (true, st1) ∧
         fcfs_release 0 st1 = Ok sample_state.
Proof.
  apply (fcfs_acquire_release_round_trip 0 sample_state
           {| owner := None; waitqueue := [] |}); reflexivity.
Defined.

Lemma sample_waiters_waiting : waiters_waiting sample_state.
Proof.
  unfold waiters_waiting. cbn [resources sample_state waitqueue].
  repeat first [apply Forall_nil_2 | apply Forall_cons_2];
    eexists; (split; reflexivity).
Qed.

(** The wake-up precondition survives the denied request of
    [sample_state]. *)
Lemma fcfs_acquire_waiters_waiting_witness : waiters_waiting denied_state.
Proof.
  exact (fcfs_acquire_waiters_waiting 2 sample_state false denied_state
           sample_waiters_waiting eq_refl).
Defined.

(** What a successful [fcfs_release] does to the queues: nothing, or the
    head [w] of one wait queue moves to the tail of the ready queue and
    becomes [PROCESS_READY]. *)
Lemma fcfs_release_queues rid st st' :
  fcfs_release rid st = Ok st' →
  (waiters st' = waiters st ∧ readyqueue st' = readyqueue st ∧
   procs st' = procs st) ∨
  (∃ w pw A ws B,
     waiters st = A ++ w :: ws ++ B ∧ waiters st' = A ++ ws ++ B ∧
     readyqueue st' = readyqueue st ++ [w] ∧ procs st !! w = Some pw ∧
     procs st' = <[w := with_status PROCESS_READY pw]> (procs st)).
Proof.
  intros H.
  destruct (fcfs_release_inv _ _ _ H)
    as (r & Hl & _ & [[Hq ->] | (w & ws & pw & Hq & Hpw & _ & ->)]).
  - left. split; [|by split].
    rewrite (waiters_store_resource _ _ _ _ Hl), (waiters_split _ _ _ Hl).
    by rewrite Hq.
  - right. exists w, pw. eexists _, ws, _. split; [|split; [|by split]].
    + rewrite (waiters_split _ _ _ Hl), Hq. reflexivity.
    + exact (waiters_store_resource st rid r _ Hl).
Qed.

(** X13.  [fcfs_release] keeps the wait queues in order: if every waiter is
    an allocated [PROCESS_WAIT] process and no process waits twice, the same
    holds after the call. *)
Theorem fcfs_release_waiters_waiting (resource_id : Z) (st st' : state) :
  waiters_waiting st → NoDup (waiters st) →
  fcfs_release resource_id st = Ok st' →
  waiters_waiting st' ∧ NoDup (waiters st').
Proof.
  rewrite !waiters_waiting_Forall. intros Hinv Hnd H.
  destruct (fcfs_release_queues _ _ _ H)
    as [(-> & _ & ->) | (w & pw & A & ws & B & Hw & -> & _ & Hpw & ->)];
    [by split|].
  rewrite Hw in Hinv, Hnd.
  assert (A ++ w :: ws ++ B ≡ₚ w :: A ++ ws ++ B) as Hperm
    by (symmetry; apply Permutation_middle).
  rewrite Hperm in Hinv, Hnd.
  apply NoDup_cons in Hnd as [Hnotin Hnd].
  apply Forall_cons in Hinv as [_ Hinv].
  split; [|assumption].
  rewrite Forall_forall in Hinv. apply Forall_forall. intros y Hy.
  destruct (Hinv y Hy) as (py & Hpy & Hst). exists py.
  split; [|assumption]. rewrite lookup_insert_ne; [assumption|].
  intros <-. contradiction.
Qed.

Lemma fcfs_release_waiters_waiting_witness :
  ∃ st', fcfs_release 1 sample_state = Ok st' ∧
         waiters_waiting st' ∧ NoDup (waiters st').
Proof.
  eexists. split; [reflexivity|].
  apply (fcfs_release_waiters_waiting 1 sample_state);
    [exact sample_waiters_waiting | | reflexivity].
  change (waiters sample_state) with [5; 6; 8]%nat. no_dup_list.
Defined.

(** X14.  [fcfs_release] neither loses nor duplicates a queued process: the
    ready queue and the wait queues hold after the call the processes they
    held before it. *)
Theorem fcfs_release_conserves_queued (resource_id : Z) (st st' : state) :
  fcfs_release resource_id st = Ok st' → queued st' ≡ₚ queued st.
Proof.
  intros H. unfold queued. fold (waiters st) (waiters st').
  destruct (fcfs_release_queues _ _ _ H)
    as [(-> & -> & _) | (w & pw & A & ws & B & -> & -> & -> & _)];
    [reflexivity|].
  rewrite <- app_assoc. apply Permutation_app_head.
  apply (Permutation_middle A (ws ++ B) w).
Qed.

Lemma fcfs_release_conserves_queued_witness :
  ∃ st', fcfs_release 1 sample_state = Ok st' ∧
         queued st' ≡ₚ queued sample_state.
Proof.
  eexists. split; [reflexivity|].
  by apply (fcfs_release_conserves_queued 1 sample_state).
Defined.



(** X16.  First come, first served: when a request is denied and the owner
    then releases the resource, the process woken is the earliest waiter,
    that is the head of the wait queue as it was before the request, or the
    process just denied when nobody was waiting; the rest of the queue keeps
    its order, with the process just denied last. *)
Theorem fcfs_release_after_denial_wakes_earliest (resource_id : Z)
    (st : state) (r : resource) (o c : ptr) (pc : process) :
  resource_at resource_id st = Ok r → owner r = Some o →
  current st = Some c → procs st !! c = Some pc →
  Forall (λ w, ∃ pw, procs st !! w = Some pw ∧ status pw = PROCESS_WAIT)
         (waitqueue r) →
  ∃ st1 st2 w ws,
    fcfs_acquire resource_id st = Ok (false, st1) ∧
    waitqueue r ++ [c] = w :: ws ∧
    fcfs_release resource_id (set_current (Some o) st1) = Ok st2 ∧
    readyqueue st2 = readyqueue st ++ [w] ∧
    resource_at resource_id st2 = Ok {| owner := None; waitqueue := ws |}.
Proof.
  intros Hr Ho Hc Hpc Hall. pose proof Hr as Hr'.
  apply resource_at_Ok in Hr' as [Hpos Hl].
  set (st1 := store_resource resource_id
                {| owner := Some o; waitqueue := waitqueue r ++ [c] |}
                (set_procs (<[c := with_status PROCESS_WAIT pc]> (procs st))
                   st)).
  assert (fcfs_acquire resource_id st = Ok (false, st1)) as Hacq.
  { unfold fcfs_acquire. rewrite Hr, bind_Ok, Ho.
    rewrite Hc, (store_status_Some _ _ _ _ Hpc), bind_Ok.
    cbn [current set_procs]. rewrite Hc. cbn [from_option].
    by rewrite bind_Ok. }
  assert (∃ w ws, waitqueue r ++ [c] = w :: ws ∧
            ∃ pw, procs st1 !! w = Some pw ∧ status pw = PROCESS_WAIT)
    as (w & ws & Hq & pw & Hpw & Hst).
  { cbn [procs st1 store_resource set_resources set_procs].
    destruct (waitqueue r) as [|w0 ws0].
    - exists c, []. split; [reflexivity|]. eexists.
      by rewrite lookup_insert_eq.
    - exists w0, (ws0 ++ [c]). split; [reflexivity|].
      apply Forall_cons in Hall as [(pw & Hpw & Hst) _].
      destruct (decide (c = w0)) as [->|Hne].
      + eexists. by rewrite lookup_insert_eq.
      + exists pw. by rewrite lookup_insert_ne. }
  assert (resource_at resource_id (set_current (Some o) st1) =
          Ok {| owner := Some o; waitqueue := w :: ws |}) as Hr1.
  { rewrite <- Hq. apply resource_at_Ok. split; [assumption|].
    cbn [resources st1 set_current store_resource set_resources set_procs].
    apply list_lookup_insert_eq. eapply lookup_lt_Some, Hl. }
  exists st1. eexists _, w, ws. split; [exact Hacq|]. split; [exact Hq|].
  unfold fcfs_release. rewrite Hr1, bind_Ok. cbn [owner waitqueue current
    set_current].
  destruct (decide (Some o = Some o)); [|done].
  rewrite deref_store_resource.
  assert (procs (set_current (Some o) st1) !! w = Some pw) as Hpw'
    by exact Hpw.
  rewrite (deref_Some _ _ _ Hpw'), bind_Ok.
  destruct (decide (status pw = PROCESS_WAIT)); [|done].
  erewrite store_status_Some
    by (rewrite !procs_store_resource; exact Hpw').
  rewrite bind_Ok. split; [reflexivity|]. split; [reflexivity|].
  rewrite resource_at_set_readyqueue, resource_at_set_procs.
  rewrite list_del_init_head.
  eapply resource_at_store, resource_at_store, Hr1.
Qed.

(** On [sample_state] process 1 is denied resource 2, behind waiter 8. *)
Lemma fcfs_release_after_denial_wakes_earliest_witness :
  ∃ st1 st2 w ws,
    fcfs_acquire 2 sample_state = Ok (false, st1) ∧
    [8; 1] = w :: ws ∧
    fcfs_release 2 (set_current (Some 2) st1) = Ok st2 ∧
    readyqueue st2 = [2; 3; 4] ++ [w] ∧
    resource_at 2 st2 = Ok {| owner := None; waitqueue := ws |}.
Proof.
  apply (fcfs_release_after_denial_wakes_earliest 2 sample_state
           {| owner := Some 2; waitqueue := [8] |} 2 1
           (mkProcess 1 PROCESS_RUNNING 1 5 0));
    [reflexivity | reflexivity | reflexivity | reflexivity |].
  constructor; [|constructor].
  exists (mkProcess 8 PROCESS_WAIT 0 3 0). split; reflexivity.
Defined.

(** ** Witnesses for the eligibility lemmas *)

Lemma denied_ready_ok : ready_ok denied_state.
Proof.
  unfold ready_ok. cbn [readyqueue denied_state set_procs store_resource
    set_resources sample_state].
  repeat first [apply Forall_nil_2 | apply Forall_cons_2];
    eexists; (split; [reflexivity|]); (split; [discriminate | reflexivity]).
Qed.

Lemma fifo_schedule_returns_eligible_witness :
  ∃ pp, procs (set_readyqueue [3; 4] denied_state) !! 2 = Some pp ∧
        eligible pp.
Proof.
  exact (fifo_schedule_returns_eligible denied_state 2 _
           denied_ready_ok eq_refl).
Defined.

Lemma sjf_schedule_returns_eligible_witness :
  ∃ pp, procs (set_readyqueue [2; 4] (set_current (Some 3) denied_state))
          !! 3 = Some pp ∧ eligible pp.
Proof.
  exact (sjf_schedule_returns_eligible denied_state 3 _
           denied_ready_ok eq_refl).
Defined.

(** ** Least lifespan, read off the result *)

Lemma sjf_scan_valid q st st1 :
  sjf_scan q st = Ok st1 → Forall (λ y, is_Some (procs st !! y)) q.
Proof.
  revert st. induction q as [|next q IH]; intros st; [constructor|].
  cbn [sjf_scan].
  destruct (deref (current st) st) as [c|e]; [|discriminate].
  rewrite bind_Ok. unfold deref at 1.
  destruct (procs st !! next) as [n|] eqn:Hn; [|discriminate].
  rewrite bind_Ok. intros H. constructor; [by eexists|].
  destruct (lifespan c >? lifespan n)%Z; [|eapply IH, H].
  apply (IH (set_current (Some next) st)), H.
Qed.

(** X20.  Whenever SJF returns a process other than by keeping the current
    one, that is with no eligible current process, it has the least lifespan
    on the ready queue. *)
Theorem sjf_schedule_picks_least_lifespan (st : state) (p : ptr)
    (st' : state) :
  no_eligible_current st → sjf_schedule st = Ok (Some p, st') →
  ∃ pp, procs st !! p = Some pp ∧ p ∈ readyqueue st ∧
    Forall (λ y, ∃ py, procs st !! y = Some py ∧
                       (lifespan pp ≤ lifespan py)%Z) (readyqueue st).
Proof.
  intros Hno H. unfold sjf_schedule in H.
  rewrite pick_when_no_eligible_current in H by assumption.
  assert (∃ q1 x q2, first_min lifespan (procs st) (readyqueue st) q1 x q2)
    as (q1 & x & q2 & Hfm).
  { unfold sjf_skip in H.
    destruct (readyqueue st) as [|first rest] eqn:Hq; [discriminate|].
    destruct (sjf_scan (first :: rest) (set_current (Some first) st))
      as [st1|e] eqn:Hscan; [|discriminate].
    apply first_min_exists. exact (sjf_scan_valid _ _ _ Hscan). }
  rewrite (sjf_skip_first_min _ _ _ _ Hfm) in H. injection H as <- <-.
  destruct Hfm as [Hq (px & Hpx & H1 & H2)]. exists px.
  split; [assumption|]. rewrite Hq.
  split; [apply elem_of_app; right; left|].
  apply Forall_app. split; [|constructor].
  - eapply Forall_impl; [exact H1|]. intros y (py & Hy & Hlt).
    exists py. split; [assumption | lia].
  - exists px. split; [assumption | lia].
  - exact H2.
Qed.

Lemma sjf_schedule_picks_least_lifespan_witness :
  ∃ pp, procs denied_state !! 3 = Some pp ∧ 3 ∈ readyqueue denied_state ∧
    Forall (λ y, ∃ py, procs denied_state !! y = Some py ∧
                       (lifespan pp ≤ lifespan py)%Z)
           (readyqueue denied_state).
Proof.
  apply (sjf_schedule_picks_least_lifespan denied_state 3
           (set_readyqueue [2; 4] (set_current (Some 3) denied_state)));
    [|reflexivity].
  right. exists 1, (mkProcess 1 PROCESS_WAIT 1 5 0).
  split; [reflexivity|]. split; [reflexivity|].
  intros [Hst _]. by apply Hst.
Defined.

(** ** A denied process does not run *)

(** X21.  After a denied [fcfs_acquire] the process that asked is not
    returned by the next [schedule] call of FIFO or SJF, nor by that of SRTF
    when the ready queue is not empty, provided it was not on the ready
    queue. *)
Theorem denied_process_is_not_rescheduled (resource_id : Z) (st st1 : state)
    (c : ptr) (r : option ptr) (st2 : state) :
  current st = Some c → c ∉ readyqueue st →
  fcfs_acquire resource_id st = Ok (false, st1) →
  fifo_schedule st1 = Ok (r, st2) ∨ sjf_schedule st1 = Ok (r, st2) ∨
  (readyqueue st ≠ [] ∧ srtf_schedule st1 = Ok (r, st2)) →
  r ≠ Some c.
Proof.
  intros Hc Hnotin Hacq Hsched.
  destruct (fcfs_acquire_inv _ _ _ _ Hacq)
    as (rs & Hl & [(? & _) | (_ & o & c' & pc & Ho & Hc' & Hpc & ->)]);
    [discriminate|].
  rewrite Hc in Hc'. injection Hc' as <-.
  set (st1 := store_resource resource_id _ _) in *.
  assert (current st1 = Some c) as Hc1 by exact Hc.
  assert (readyqueue st1 = readyqueue st) as Hq1 by reflexivity.
  assert (procs st1 !! c = Some (with_status PROCESS_WAIT pc)) as Hpc1.
  { cbn [procs st1 store_resource set_resources set_procs].
    apply lookup_insert_eq. }
  assert (no_eligible_current st1) as Hno.
  { right. exists c, (with_status PROCESS_WAIT pc).
    split; [assumption|]. split; [assumption|]. intros [Hst _].
    by apply Hst. }
  assert (∀ p, p ∈ readyqueue st1 → Some p ≠ Some c) as Hother.
  { intros p Hp [= ->]. apply Hnotin. by rewrite <- Hq1. }
  destruct Hsched as [H | [H | [Hne H]]].
  - unfold fifo_schedule in H.
    rewrite pick_when_no_eligible_current in H by assumption.
    apply fifo_pick_next_inv in H as [(-> & _) | (p & -> & Hp & _)];
      [discriminate | by apply Hother].
  - unfold sjf_schedule in H.
    rewrite pick_when_no_eligible_current in H by assumption.
    apply sjf_skip_inv in H as [(-> & _) | (p & -> & Hp & _)];
      [discriminate | by apply Hother].
  - rewrite <- Hq1 in Hne.
    destruct (srtf_schedule_first_min _ _ _ Hne H) as (q1 & x & q2 & Hfm).
    rewrite (srtf_schedule_no_eligible_current _ _ _ _ Hno Hfm) in H.
    injection H as <- _. apply Hother.
    destruct Hfm as [-> _]. apply elem_of_app. right. left.
Qed.

(** After the denial that leads from [sample_state] to [denied_state],
    SRTF returns process 3, not process 1. *)
Lemma denied_process_is_not_rescheduled_witness :
  fcfs_acquire 2 sample_state = Ok (false, denied_state) ∧
  srtf_schedule denied_state =
    Ok (Some 3, set_readyqueue [2; 4] denied_state) ∧
  Some 3 ≠ Some 1.
Proof.
  split; [reflexivity|]. split; [reflexivity|].
  apply (denied_process_is_not_rescheduled 2 sample_state denied_state 1
           (Some 3) (set_readyqueue [2; 4] denied_state)).
  - reflexivity.
  - cbn [readyqueue sample_state]. not_in_list.
  - reflexivity.
  - right. right. split; [discriminate | reflexivity].
Defined.

(** ** SRTF on an empty ready queue *)

(** X22.  With an empty ready queue and a current process, SRTF looks at
    the counters of the current process only: it returns the current process
    when it has lifetime left, whatever its status, and no process when it
    has none; the state is untouched either way. *)
Theorem srtf_schedule_on_empty_queue (st : state) (c : ptr) (pc : process) :
  readyqueue st = [] → current st = Some c → procs st !! c = Some pc →
  ((age pc < lifespan pc)%Z → srtf_schedule st = Ok (Some c, st)) ∧
  ((lifespan pc ≤ age pc)%Z → srtf_schedule st = Ok (None, st)).
Proof.
  intros Hq Hc Hpc. rewrite (srtf_schedule_empty_queue st c pc Hq Hc Hpc).
  split; intros Hcmp.
  - destruct (Z.ltb_spec (age pc) (lifespan pc)); [reflexivity | lia].
  - destruct (Z.ltb_spec (age pc) (lifespan pc)); [lia | reflexivity].
Qed.

(** The last process, finished: nothing is ready, process 1 has run its 5
    ticks. *)
Lemma srtf_schedule_on_empty_queue_witness :
  srtf_schedule
    (set_current (Some 1)
       (set_procs (list_to_map [(1%nat, mkProcess 1 PROCESS_RUNNING 5 5 0)])
          idle_state)) =
  Ok (None,
      set_current (Some 1)
        (set_procs (list_to_map [(1%nat, mkProcess 1 PROCESS_RUNNING 5 5 0)])
           idle_state)).
Proof.
  refine (proj2 (srtf_schedule_on_empty_queue _ 1
                   (mkProcess 1 PROCESS_RUNNING 5 5 0) _ _ _) _);
    [reflexivity | reflexivity | reflexivity | simpl; lia].
Defined.
